(** * uk-postcode-enricher: a shallow embedding of [src/app.js]

    The development follows the pipeline of the program: the normalizer
    ([parsePostcodes]), the batch enricher ([fetchBatch], [enrich]), the CSV
    exporter ([toCSV]), the table renderer ([renderTable]) and the click
    handler of the run button.

    Conventions of the embedding.
    - A JavaScript string is a Rocq [string]; its characters stand for the
      UTF-16 code units U+0000 .. U+00FF.
    - A JavaScript object used as a record of named values is a
      [gmap string jsval]; reading an absent key gives [None] (the value
      [undefined]).  Only own properties are modelled.
    - [async] code is run against an oracle that fixes the outcome of every
      network request; what the code does to the page and to the clock is
      kept in an explicit state. *)

From Stdlib Require Import Ascii String.
From stdpp Require Import gmap strings list.

(** ** Characters and strings *)

Module Chr.

Definition code (c : ascii) : nat := nat_of_ascii c.

Definition between (lo hi : nat) (c : ascii) : bool :=
  (lo <=? code c) && (code c <=? hi).

(** The regular-expression classes [[A-Z]], [\d] and [[A-Z0-9]]. *)
Definition isUpper (c : ascii) : bool := between 65 90 c.
Definition isDigit (c : ascii) : bool := between 48 57 c.
Definition isAlnum (c : ascii) : bool := isUpper c || isDigit c.

Definition LF : ascii := "010"%char.
Definition CR : ascii := "013"%char.
Definition comma : ascii := ","%char.
Definition dquote : ascii := "034"%char.
Definition space : ascii := " "%char.

(** What [String.prototype.trim] removes, among the code units below
    U+0100: TAB, LF, VT, FF, CR, SPACE and NBSP. *)
Definition isWhite (c : ascii) : bool :=
  between 9 13 c || (code c =? 32) || (code c =? 160).

(** [toUpperCase] on one code unit.  Below U+0100 the Unicode upper-case
    mapping moves a-z and the accented small letters down by 32 and maps
    the sharp s (U+00DF) to the two letters [SS]; the micro sign (U+00B5)
    and the y with diaeresis (U+00FF) map outside the modelled range, to
    U+039C and U+0178, code units that no class above contains, and are
    left in place: where the upper-case form of a text is kept, as it is
    for the postcode of a row, what is stated of it is stated of texts
    without these two characters. *)
Definition upper (c : ascii) : string :=
  if between 97 122 c then String (ascii_of_nat (code c - 32)) ""
  else if code c =? 223 then "SS"
  else if between 224 254 c && negb (code c =? 247)
       then String (ascii_of_nat (code c - 32)) ""
  else String c "".

End Chr.

Module Str.

Fixpoint filter (p : ascii -> bool) (s : string) : string :=
  match s with
  | EmptyString => EmptyString
  | String c s' => if p c then String c (filter p s') else filter p s'
  end.

Fixpoint map (f : ascii -> ascii) (s : string) : string :=
  match s with
  | EmptyString => EmptyString
  | String c s' => String (f c) (map f s')
  end.

Fixpoint flat_map (f : ascii -> string) (s : string) : string :=
  match s with
  | EmptyString => EmptyString
  | String c s' => f c +:+ flat_map f s'
  end.

Fixpoint forallb (p : ascii -> bool) (s : string) : bool :=
  match s with
  | EmptyString => true
  | String c s' => p c && forallb p s'
  end.

Fixpoint existsb (p : ascii -> bool) (s : string) : bool :=
  match s with
  | EmptyString => false
  | String c s' => p c || existsb p s'
  end.

Definition isEmpty (s : string) : bool :=
  match s with EmptyString => true | String _ _ => false end.

(** [Array.prototype.join] on an array of strings. *)
Fixpoint join (sep : string) (l : list string) : string :=
  match l with
  | [] => ""
  | [x] => x
  | x :: rest => x +:+ sep +:+ join sep rest
  end.

(** [s.replace(/c/g, t)] for a single character [c]. *)
Definition replaceAll (c : ascii) (t : string) (s : string) : string :=
  flat_map (fun x => if Ascii.eqb x c then t else String x "") s.

(** [s.split(/\r?\n/)]: scanning from the left, a separator is LF or CR
    immediately followed by LF; [cur] is the piece read so far. *)
Fixpoint splitLines (cur : string) (s : string) : list string :=
  match s with
  | EmptyString => [cur]
  | String c s' =>
      if Ascii.eqb c Chr.LF then cur :: splitLines "" s'
      else if Ascii.eqb c Chr.CR then
        match s' with
        | String c' s'' =>
            if Ascii.eqb c' Chr.LF then cur :: splitLines "" s''
            else splitLines (cur +:+ String c "") s'
        | EmptyString => splitLines (cur +:+ String c "") s'
        end
      else splitLines (cur +:+ String c "") s'
  end.

Fixpoint trimStart (s : string) : string :=
  match s with
  | EmptyString => EmptyString
  | String c s' => if Chr.isWhite c then trimStart s' else s
  end.

Fixpoint trimEnd (s : string) : string :=
  match s with
  | EmptyString => EmptyString
  | String c s' =>
      let r := trimEnd s' in
      if isEmpty r && Chr.isWhite c then EmptyString else String c r
  end.

Definition trim (s : string) : string := trimEnd (trimStart s).

Definition toUpperCase (s : string) : string := flat_map Chr.upper s.

(** The first [n] characters of [s]. *)
Fixpoint take (n : nat) (s : string) : string :=
  match n, s with
  | S n', String c s' => String c (take n' s')
  | _, _ => EmptyString
  end.

End Str.

(** ** A backtracking matcher for the regular expressions of the source

    [exec r s k] tries the alternatives of [r] at the start of [s] in the
    priority order of a backtracking engine and hands the unread rest of the
    input to the continuation [k]; the first alternative on which [k]
    succeeds wins. *)

Module Re.

Inductive regex : Type :=
| Cls (p : ascii -> bool)
| Cat (r1 r2 : regex)
| Opt (r : regex).

Fixpoint exec {A} (r : regex) (s : string) (k : string -> option A) : option A :=
  match r with
  | Cls p =>
      match s with
      | String c s' => if p c then k s' else None
      | EmptyString => None
      end
  | Cat r1 r2 => exec r1 s (fun s1 => exec r2 s1 k)
  | Opt r1 =>
      match exec r1 s k with
      | Some a => Some a
      | None => k s
      end
  end.

(** [r{1,2}] *)
Definition Rep12 (r : regex) : regex := Cat r (Opt r).

End Re.

(** ** The normalizer: [parsePostcodes] *)

(** [([A-Z]{1,2}\d[A-Z\d]?)], the first group of the pattern in
    [normalize]. *)
Definition outwardRe : Re.regex :=
  Re.Cat (Re.Rep12 (Re.Cls Chr.isUpper))
    (Re.Cat (Re.Cls Chr.isDigit) (Re.Opt (Re.Cls Chr.isAlnum))).

(** [(\d[A-Z]{2})], the second group. *)
Definition inwardRe : Re.regex :=
  Re.Cat (Re.Cls Chr.isDigit)
    (Re.Cat (Re.Cls Chr.isUpper) (Re.Cls Chr.isUpper)).

(** A match of [/^([A-Z]{1,2}\d[A-Z\d]?)(\d[A-Z]{2})$/] against [s]: the
    two captured groups, when the whole of [s] matches. *)
Definition matchPostcode (s : string) : option (string * string) :=
  Re.exec outwardRe s (fun s1 =>
    Re.exec inwardRe s1 (fun s2 =>
      if Str.isEmpty s2
      then Some (Str.take (String.length s - String.length s1) s, s1)
      else None)).

(** [compact.replace(/^(...)(...)$/, '$1 $2')] *)
Definition spaceInward (compact : string) : string :=
  match matchPostcode compact with
  | Some (g1, g2) => g1 +:+ " " +:+ g2
  | None => compact
  end.

(** [s.toUpperCase().replace(/[^A-Z0-9]/g, '')] *)
Definition compactOf (s : string) : string :=
  Str.filter Chr.isAlnum (Str.toUpperCase s).

Definition normalize (s : string) : string :=
  let compact := compactOf s in
  if (String.length compact <? 5) || (8 <? String.length compact) then ""
  else spaceInward compact.

(** The pieces of the raw text before normalization:
    [raw.replace(/,/g, '\n').split(/\r?\n/)] with each piece trimmed. *)
Definition rawTokens (raw : string) : list string :=
  Str.trim <$> Str.splitLines "" (Str.replaceAll Chr.comma (String Chr.LF "") raw).

(** The constant [tokens] of the source:
    [....map(s => normalize(s.trim())).filter(Boolean)]. *)
Definition tokens (raw : string) : list string :=
  List.filter (fun s => negb (Str.isEmpty s)) (normalize <$> rawTokens raw).

(** One turn of the loop [for (const pc of tokens)], on the pair of the set
    [seen] and the array [out]. *)
Definition dedupStep (st : gset string * list string) (pc : string)
  : gset string * list string :=
  if decide (pc ∈ st.1) then st else ({[pc]} ∪ st.1, st.2 ++ [pc]).

Definition dedup (l : list string) : list string :=
  (fold_left dedupStep l (∅, [])).2.

Definition parsePostcodes (raw : string) : list string :=
  dedup (tokens raw).

(** ** Values and rows *)

(** The values a field of a row or of an API result can hold.  A number is
    carried as the text [String] gives for it. *)
Inductive jsval : Type :=
| JNull
| JBool (b : bool)
| JNum (text : string)
| JStr (s : string).

Global Instance jsval_eq_dec : EqDecision jsval.
Proof. solve_decision. Defined.

(** [String(v)] *)
Definition toString (v : jsval) : string :=
  match v with
  | JNull => "null"
  | JBool true => "true"
  | JBool false => "false"
  | JNum t => t
  | JStr s => s
  end.

(** The truth value of the result of a property read ([None] is
    [undefined]). *)
Definition truthy (v : option jsval) : bool :=
  match v with
  | None | Some JNull => false
  | Some (JBool b) => b
  | Some (JNum t) => negb (String.eqb t "0" || String.eqb t "NaN")
  | Some (JStr s) => negb (Str.isEmpty s)
  end.

(** [a || b] *)
Definition jsOr (a b : option jsval) : option jsval :=
  if truthy a then a else b.

(** [a ?? b] *)
Definition jsCoalesce (a : option jsval) (b : jsval) : jsval :=
  match a with
  | None | Some JNull => b
  | Some v => v
  end.

Abbreviation Row := (gmap string jsval).

Definition FIELDS : list string :=
  [ "country"; "nhs_ha"; "admin_county"; "admin_district"; "admin_ward";
    "parliamentary_constituency"; "european_electoral_region";
    "primary_care_trust"; "region"; "parish"; "latitude"; "longitude" ].

Definition MAX_BATCH : nat := 100.

(** [['postcode', ...FIELDS]], the header of the click handler. *)
Definition HEADER : list string := "postcode" :: FIELDS.

(** ** The CSV exporter: [toCSV] *)

Definition needsQuoting (c : ascii) : bool :=
  Ascii.eqb c Chr.dquote || Ascii.eqb c Chr.comma || Ascii.eqb c Chr.LF.

(** The function [esc] of [toCSV], applied to the result of [r[h]]. *)
Definition esc (v : option jsval) : string :=
  match v with
  | None | Some JNull => ""
  | Some v =>
      let str := toString v in
      if Str.existsb needsQuoting str
      then String Chr.dquote
             (Str.replaceAll Chr.dquote (String Chr.dquote (String Chr.dquote "")) str
              +:+ String Chr.dquote "")
      else str
  end.

(** [header.map(h => esc(r[h])).join(',')] *)
Definition csvLine (header : list string) (r : Row) : string :=
  Str.join "," ((fun h => esc (r !! h)) <$> header).

(** [toCSV]: the array [lines] starts with the header line, gets one line
    pushed per row, and is joined at the end. *)
Definition toCSV (rows : list Row) (header : list string) : string :=
  let lines :=
    fold_left (fun lines r => lines ++ [csvLine header r]) rows
      [Str.join "," header] in
  Str.join (String Chr.LF "") lines.

(** ** Readers of CSV text

    The readers are not part of the program.  They are the comma- and
    quote-aware parsers against which the round trip of [toCSV] is
    measured: a comma ends a field and a line feed ends a record, except
    inside a field that opens with a double quote, where both are data and
    a doubled quote stands for one quote.

    The two readers differ at the end of the text only.  [run] always
    ends a record there, so that a text that ends with a line feed has a
    last record of one empty field and the empty text has one record.
    [runStd] takes the end of the text as RFC 4180 and the common readers
    do: a record that has not begun (no character read, no field ended)
    is not a record, so that a line feed at the end of the text only ends
    the record before it and the empty text has no record. *)

Module Csv.

Inductive mode : Type :=
| Plain      (* in an unquoted field, possibly still empty *)
| Quoted     (* inside a quoted field *)
| QuoteSeen. (* just after a quote inside a quoted field *)

(** [cur]: the field read so far; [fields]: the finished fields of the
    current record; [recs]: the finished records. *)
Fixpoint run (m : mode) (cur : string) (fields : list string)
    (recs : list (list string)) (s : string) : list (list string) :=
  match s with
  | EmptyString => recs ++ [fields ++ [cur]]
  | String c s' =>
      match m with
      | Quoted =>
          if Ascii.eqb c Chr.dquote then run QuoteSeen cur fields recs s'
          else run Quoted (cur +:+ String c "") fields recs s'
      | Plain | QuoteSeen =>
          if Ascii.eqb c Chr.comma then run Plain "" (fields ++ [cur]) recs s'
          else if Ascii.eqb c Chr.LF then
            run Plain "" [] (recs ++ [fields ++ [cur]]) s'
          else if Ascii.eqb c Chr.dquote then
            match m with
            | QuoteSeen => run Quoted (cur +:+ String c "") fields recs s'
            | _ =>
                if Str.isEmpty cur then run Quoted "" fields recs s'
                else run Plain (cur +:+ String c "") fields recs s'
            end
          else run Plain (cur +:+ String c "") fields recs s'
      end
  end.

Definition parse (s : string) : list (list string) := run Plain "" [] [] s.

(** The records after the header record. *)
Definition dataRows (s : string) : list (list string) := tail (parse s).

(** The same reader, but for the end of the text. *)
Fixpoint runStd (m : mode) (cur : string) (fields : list string)
    (recs : list (list string)) (s : string) : list (list string) :=
  match s with
  | EmptyString =>
      match m, fields, cur with
      | Plain, [], EmptyString => recs
      | _, _, _ => recs ++ [fields ++ [cur]]
      end
  | String c s' =>
      match m with
      | Quoted =>
          if Ascii.eqb c Chr.dquote then runStd QuoteSeen cur fields recs s'
          else runStd Quoted (cur +:+ String c "") fields recs s'
      | Plain | QuoteSeen =>
          if Ascii.eqb c Chr.comma then runStd Plain "" (fields ++ [cur]) recs s'
          else if Ascii.eqb c Chr.LF then
            runStd Plain "" [] (recs ++ [fields ++ [cur]]) s'
          else if Ascii.eqb c Chr.dquote then
            match m with
            | QuoteSeen => runStd Quoted (cur +:+ String c "") fields recs s'
            | _ =>
                if Str.isEmpty cur then runStd Quoted "" fields recs s'
                else runStd Plain (cur +:+ String c "") fields recs s'
            end
          else runStd Plain (cur +:+ String c "") fields recs s'
      end
  end.

Definition parseStd (s : string) : list (list string) := runStd Plain "" [] [] s.

Definition dataRowsStd (s : string) : list (list string) := tail (parseStd s).

End Csv.

(** The text a cell of a row stands for: what [String] gives, and the empty
    text for [null] and [undefined]. *)
Definition cellText (v : option jsval) : string :=
  match v with
  | None | Some JNull => ""
  | Some v => toString v
  end.

(** The values of a row, in header order. *)
Definition rowValues (header : list string) (r : Row) : list string :=
  (fun h => cellText (r !! h)) <$> header.

(** ** The page, the clock and the network *)

(** The texts written to [statusEl.textContent], by the place that writes
    them. *)
Inductive Status : Type :=
| StInitial
| StFetching (lo hi total : nat)  (* `Fetching ${lo}-${hi} of ${total}...` *)
| StRetrying (n : nat)            (* `Rate limited / error, retrying... (${n})` *)
| StDone (n : nat)                (* `Done. ${n} rows.` *)
| StPleasePaste                   (* 'Please paste at least one postcode.' *)
| StEnriching                     (* 'Enriching data...' *)
| StEnriched (n : nat)            (* `Enriched ${n} postcodes` *)
| StError.                        (* 'Error enriching data. Please try again.' *)

(** [resultsEl.style.display] *)
Inductive Display : Type := DisplayInitial | DisplayNone | DisplayBlock.

(** The content of [tableEl]: the cells of the row of [thead] and the rows
    of cells of [tbody]. *)
Record Table : Type := mkTable {
  thead : list string;
  tbody : list (list string)
}.

(** What the program does to the network and to the clock, in the order in
    which it does it. *)
Inductive Event : Type :=
| EvSent (chunk : list string)   (* a batch handed to [fetch] *)
| EvSlept (ms : nat).            (* a delay [sleep] waited for *)

(** What the program can change, and a log of what it did: the page, the
    delays it slept for (in ms, oldest first), the batches it sent, both
    also as one sequence of events in the order they happened, and the
    object URLs it made and revoked. *)
Record Env : Type := mkEnv {
  status : Status;
  display : Display;
  table : option Table;            (* [None]: [tableEl] has no children *)
  runDisabled : bool;
  downloadDisabled : bool;
  datasetUrl : option nat;         (* an object URL, by its number *)
  datasetFilename : option string;
  blobs : list string;             (* the texts object URLs were made for *)
  revoked : list nat;
  slept : list nat;
  sent : list (list string);
  events : list Event
}.

Definition setStatus (x : Status) (e : Env) : Env :=
  mkEnv x (display e) (table e) (runDisabled e) (downloadDisabled e)
    (datasetUrl e) (datasetFilename e) (blobs e) (revoked e) (slept e) (sent e)
    (events e).
Definition setDisplay (x : Display) (e : Env) : Env :=
  mkEnv (status e) x (table e) (runDisabled e) (downloadDisabled e)
    (datasetUrl e) (datasetFilename e) (blobs e) (revoked e) (slept e) (sent e)
    (events e).
Definition setTable (x : option Table) (e : Env) : Env :=
  mkEnv (status e) (display e) x (runDisabled e) (downloadDisabled e)
    (datasetUrl e) (datasetFilename e) (blobs e) (revoked e) (slept e) (sent e)
    (events e).
Definition setRunDisabled (x : bool) (e : Env) : Env :=
  mkEnv (status e) (display e) (table e) x (downloadDisabled e)
    (datasetUrl e) (datasetFilename e) (blobs e) (revoked e) (slept e) (sent e)
    (events e).
Definition setDownloadDisabled (x : bool) (e : Env) : Env :=
  mkEnv (status e) (display e) (table e) (runDisabled e) x
    (datasetUrl e) (datasetFilename e) (blobs e) (revoked e) (slept e) (sent e)
    (events e).
Definition setDataset (url : nat) (name : string) (e : Env) : Env :=
  mkEnv (status e) (display e) (table e) (runDisabled e) (downloadDisabled e)
    (Some url) (Some name) (blobs e) (revoked e) (slept e) (sent e)
    (events e).
Definition addBlob (text : string) (e : Env) : Env :=
  mkEnv (status e) (display e) (table e) (runDisabled e) (downloadDisabled e)
    (datasetUrl e) (datasetFilename e) (blobs e ++ [text]) (revoked e) (slept e) (sent e)
    (events e).
Definition addRevoked (url : nat) (e : Env) : Env :=
  mkEnv (status e) (display e) (table e) (runDisabled e) (downloadDisabled e)
    (datasetUrl e) (datasetFilename e) (blobs e) (revoked e ++ [url]) (slept e) (sent e)
    (events e).
Definition addSlept (ms : nat) (e : Env) : Env :=
  mkEnv (status e) (display e) (table e) (runDisabled e) (downloadDisabled e)
    (datasetUrl e) (datasetFilename e) (blobs e) (revoked e) (slept e ++ [ms]) (sent e)
    (events e ++ [EvSlept ms]).
Definition addSent (chunk : list string) (e : Env) : Env :=
  mkEnv (status e) (display e) (table e) (runDisabled e) (downloadDisabled e)
    (datasetUrl e) (datasetFilename e) (blobs e) (revoked e) (slept e) (sent e ++ [chunk])
    (events e ++ [EvSent chunk]).

(** The page as it is loaded. *)
Definition initialEnv : Env :=
  mkEnv StInitial DisplayInitial None false true None None [] [] [] [] [].

(** An element of the array [result] of the API: the echoed [query] and the
    object [result], [None] when it is [null]. *)
Record Item : Type := mkItem {
  query : option jsval;
  result : option Row
}.

(** What one [fetch] of a batch comes to.  [json = None] stands for a body
    from which [resp.json()] or the read of [data.result] throws;
    [Some None] for a body whose [result] is absent or [null]. *)
Inductive Response : Type :=
| TransportError
| Http (ok : bool) (json : option (option (list Item))).

(** The network: the response to the request for the chunk at offset [i] of
    the list of codes, on the attempt numbered [attempt] (from 0). *)
Definition Net : Type := nat -> nat -> list string -> Response.

(** ** Computations that change the environment and may throw *)

Inductive Result (A : Type) : Type :=
| Ok (a : A)
| Throw (msg : string).
Arguments Ok {A} a.
Arguments Throw {A} msg.

Definition M (A : Type) : Type := Env -> Env * Result A.

Global Instance M_ret : MRet M := fun A a e => (e, Ok a).
Global Instance M_bind : MBind M := fun A B f m e =>
  match m e with
  | (e', Ok a) => f a e'
  | (e', Throw msg) => (e', Throw msg)
  end.

Definition throw {A} (msg : string) : M A := fun e => (e, Throw msg).
Definition modify (f : Env -> Env) : M unit := fun e => (f e, Ok tt).
Definition sleep (ms : nat) : M unit := modify (addSlept ms).

(** [try { x = m } catch (e) { ... }]: the outcome of [m] as a value. *)
Definition attemptM {A} (m : M A) : M (Result A) := fun e =>
  let '(e', r) := m e in (e', Ok r).

Fixpoint foldM {A B} (f : B -> A -> M B) (l : list A) (b : B) : M B :=
  match l with
  | [] => mret b
  | a :: l' => b' ← f b a; foldM f l' b'
  end.

(** ** The batch enricher: [fetchBatch] and [enrich] *)

(** [fetchBatch]: the request is sent; a rejected [fetch], a response that
    is not [ok] and an unreadable body throw; otherwise the value is
    [data.result || []].  The calls of [console.log] are left out. *)
Definition fetchBatch (net : Net) (i attempt : nat) (postcodes : list string)
  : M (list Item) :=
  modify (addSent postcodes);;
  match net i attempt postcodes with
  | TransportError => throw "TypeError: Failed to fetch"
  | Http false _ => throw "API error"
  | Http true None => throw "SyntaxError"
  | Http true (Some data_result) => mret (default [] data_result)
  end.

(** The loop [for (let attempt = 0; attempt < 3; attempt++)] of [enrich],
    with [n] turns left; its value is the variable [result] after the loop,
    [None] when it is still [undefined]. *)
Fixpoint attempts (net : Net) (i : nat) (chunk : list string)
    (n attempt : nat) : M (option (list Item)) :=
  match n with
  | 0 => mret None
  | S n' =>
      r ← attemptM (fetchBatch net i attempt chunk);
      match r with
      | Ok items => mret (Some items)
      | Throw _ =>
          modify (setStatus (StRetrying (attempt + 1)));;
          sleep (750 * (attempt + 1));;
          attempts net i chunk n' (attempt + 1)
      end
  end.

(** [(res?.postcode || item.query || '').toUpperCase()]: the method exists
    on strings only. *)
Definition itemPostcode (item : Item) : Result jsval :=
  match jsOr (jsOr (result item ≫= (fun res => res !! "postcode")) (query item))
             (Some (JStr "")) with
  | Some (JStr s) => Ok (JStr (Str.toUpperCase s))
  | _ => Throw "TypeError: toUpperCase is not a function"
  end.

(** [let v = res ? (res[f] ?? '') : ''; if (v == null) v = '';] *)
Definition fieldValue (res : option Row) (f : string) : jsval :=
  let v := match res with
           | Some r => jsCoalesce (r !! f) (JStr "")
           | None => JStr ""
           end in
  match v with
  | JNull => JStr ""
  | _ => v
  end.

(** The loop [for (const f of FIELDS) { ...; row[f] = v; }]. *)
Definition fillFields (res : option Row) (row : Row) : Row :=
  fold_left (fun (row : Row) f => <[f := fieldValue res f]> row) FIELDS row.

(** The body of [for (const item of result)] up to [rows.push(row)]. *)
Definition rowOfItem (item : Item) : Result Row :=
  match itemPostcode item with
  | Throw msg => Throw msg
  | Ok pc => Ok (fillFields (result item) {[ "postcode" := pc ]})
  end.

Definition pushRow (rows : list Row) (item : Item) : M (list Row) :=
  match rowOfItem item with
  | Ok row => mret (rows ++ [row])
  | Throw msg => throw msg
  end.

(** The values of [i] in [for (let i = 0; i < len; i += MAX_BATCH)]. *)
Definition offsets (len : nat) : list nat :=
  (fun k => k * MAX_BATCH) <$> seq 0 ((len + (MAX_BATCH - 1)) / MAX_BATCH).

(** One turn of the outer loop of [enrich]. *)
Definition enrichChunk (net : Net) (postcodes : list string)
    (rows : list Row) (i : nat) : M (list Row) :=
  let chunk := take MAX_BATCH (drop i postcodes) in
  modify (setStatus (StFetching (i + 1)
            (Nat.min (i + MAX_BATCH) (length postcodes)) (length postcodes)));;
  res ← attempts net i chunk 3 0;
  match res with
  | None => throw "Failed to fetch after retries"
  | Some items =>
      rows' ← foldM pushRow items rows;
      sleep 80;;
      mret rows'
  end.

Definition enrich (net : Net) (postcodes : list string) : M (list Row) :=
  rows ← foldM (enrichChunk net postcodes) (offsets (length postcodes)) [];
  modify (setStatus (StDone (length rows)));;
  mret rows.

(** ** The table renderer: [renderTable] *)

(** [td.textContent = r[h] ?? ''] *)
Definition tdText (r : Row) (h : string) : string :=
  toString (jsCoalesce (r !! h) (JStr "")).

Definition renderTable (rows : list Row) (header : list string) (e : Env) : Env :=
  match rows with
  | [] => setDisplay DisplayNone e
  | _ =>
      let trh := fold_left (fun tr h => tr ++ [h]) header [] in
      let body :=
        fold_left
          (fun tb r => tb ++ [fold_left (fun tr h => tr ++ [tdText r h]) header []])
          (take 500 rows) [] in
      setTable (Some (mkTable trh body)) (setDisplay DisplayBlock e)
  end.

(** The data rows the page shows: none while the results are hidden. *)
Definition shownRows (e : Env) : list (list string) :=
  match display e, table e with
  | DisplayBlock, Some t => tbody t
  | _, _ => []
  end.

(** ** The click handler of the run button *)

(** [iso.replace(/[:T]/g, '-').slice(0,19)] *)
Definition timestamp (iso : string) : string :=
  Str.take 19
    (Str.map (fun c => if Ascii.eqb c ":" || Ascii.eqb c "T" then "-"%char else c) iso).

(** The handler, run to its end against the network [net], with the text of
    the input area and the value of [new Date().toISOString()] at the time
    it is read. *)
Definition runClick (net : Net) (inputValue iso : string) (e : Env) : Env :=
  let pcs := parsePostcodes inputValue in
  match pcs with
  | [] => setStatus StPleasePaste e
  | _ =>
      let e1 :=
        setDisplay DisplayNone
          (setStatus StEnriching (setDownloadDisabled true (setRunDisabled true e))) in
      let e2 :=
        match enrich net pcs e1 with
        | (e', Ok rows) =>
            let e'' := renderTable rows HEADER e' in
            let csv := toCSV rows HEADER in
            let ts := timestamp iso in
            let e3 := match datasetUrl e'' with
                      | Some u => addRevoked u e''
                      | None => e''
                      end in
            let url := length (blobs e3) in
            setStatus (StEnriched (length rows))
              (setDownloadDisabled false
                 (setDataset url ("postcodes_enriched_" +:+ ts +:+ ".csv")
                    (addBlob csv e3)))
        | (e', Throw _) => setDisplay DisplayNone (setStatus StError e')
        end in
      setRunDisabled false e2
  end.


(** ** The download: [download] and the click handler of the download button *)

(** An [a] element made by [download]: the order number of its creation,
    its [href] (an object URL, by its number) and its [download]
    attribute. *)
Record Anchor : Type := mkAnchor {
  anchorId : nat;
  href : nat;
  downloadName : string
}.

(** The document around the page: the environment of the program, the
    anchors [download] has put into [document.body], the anchors it has
    clicked (oldest first), the callbacks handed to [setTimeout] that have
    not run yet (each removes the anchor of the given number), and the
    number of anchors [download] has made so far. *)
Record Doc : Type := mkDoc {
  env : Env;
  body : list Anchor;
  clicked : list Anchor;
  timers : list nat;
  created : nat
}.

(** [download(name, url)] *)
Definition download (name : string) (url : nat) (d : Doc) : Doc :=
  let a := mkAnchor (created d) url name in
  mkDoc (env d) (body d ++ [a]) (clicked d ++ [a]) (timers d ++ [anchorId a])
    (S (created d)).

(** The oldest pending callback [() => { a.remove(); }] runs. *)
Definition runTimer (d : Doc) : Doc :=
  match timers d with
  | [] => d
  | id :: rest =>
      mkDoc (env d)
        (List.filter (fun a => negb (anchorId a =? id)) (body d))
        (clicked d) rest (created d)
  end.

(** All pending callbacks run, oldest first. *)
Definition runTimers (d : Doc) : Doc :=
  fold_left (fun d _ => runTimer d) (timers d) d.

(** The click handler of the download button.  An object URL is a
    non-empty text, so [!url] holds exactly when [dataset.url] is not
    set. *)
Definition downloadClick (d : Doc) : Doc :=
  let name :=
    match datasetFilename (env d) with
    | Some n => if Str.isEmpty n then "postcodes_enriched.csv" else n
    | None => "postcodes_enriched.csv"
    end in
  match datasetUrl (env d) with
  | None => d
  | Some url => download name url d
  end.

(** The click handler of the run button, in the document. *)
Definition runClickDoc (net : Net) (inputValue iso : string) (d : Doc) : Doc :=
  mkDoc (runClick net inputValue iso (env d)) (body d) (clicked d) (timers d)
    (created d).
(** * Notions used to state the properties *)

(** The characters of a code: upper-case letters, digits and the space. *)
Definition isCodeChar (c : ascii) : bool :=
  Chr.isAlnum c || Ascii.eqb c Chr.space.

(** Neither a line feed nor a carriage return. *)
Definition notBreak (c : ascii) : bool :=
  negb (Ascii.eqb c Chr.LF) && negb (Ascii.eqb c Chr.CR).

Definition notWhite (c : ascii) : bool := negb (Chr.isWhite c).

(** The words a regular expression denotes. *)
Fixpoint lang (r : Re.regex) (w : string) : Prop :=
  match r with
  | Re.Cls p => exists c, w = String c "" /\ p c = true
  | Re.Cat r1 r2 => exists u v, w = u +:+ v /\ lang r1 u /\ lang r2 v
  | Re.Opt r1 => w = "" \/ lang r1 w
  end.

(** ** The shape of a postal code, in words *)

(** The inward part: a digit and two letters. *)
Definition isInward (i : string) : Prop :=
  exists d a b,
    i = String d (String a (String b "")) /\
    Chr.isDigit d = true /\ Chr.isUpper a = true /\ Chr.isUpper b = true.

(** The outward part: one or two letters, a digit, and possibly one more
    letter or digit. *)
Definition isOutward (o : string) : Prop :=
  exists letters d last,
    o = letters +:+ String d last /\
    Str.forallb Chr.isUpper letters = true /\
    1 <= String.length letters <= 2 /\
    Chr.isDigit d = true /\
    (last = "" \/ exists x, last = String x "" /\ Chr.isAlnum x = true).


(** ** Notions for the normalizer *)

(** The compacted form of a token has between 5 and 8 characters. *)
Definition lengthValid (t : string) : bool :=
  (5 <=? String.length (compactOf t)) && (String.length (compactOf t) <=? 8).

(** The position of the first occurrence of [x] in [l]. *)
Fixpoint firstIndex (x : string) (l : list string) : option nat :=
  match l with
  | [] => None
  | y :: l' => if decide (x = y) then Some 0 else S <$> firstIndex x l'
  end.

(** ** Notions for the CSV exporter *)

(** Where a field of CSV text can end: at the end of the text, before a
    comma or before a line feed. *)
Definition atBoundary (rest : string) : Prop :=
  rest = "" \/ exists c s, rest = String c s /\ (c = Chr.comma \/ c = Chr.LF).

(** Neither a double quote nor a line feed: the characters that never
    change how a reader of CSV text reads what follows an unquoted field. *)
Definition notQuoteOrLF (c : ascii) : bool :=
  negb (Ascii.eqb c Chr.dquote) && negb (Ascii.eqb c Chr.LF).

(** The text of [toCSV] written line by line: the header line, then for
    each row a line feed followed by the line of the row. *)
Fixpoint rowLines (header : list string) (rows : list Row) : string :=
  match rows with
  | [] => ""
  | r :: rows' => String Chr.LF (csvLine header r) +:+ rowLines header rows'
  end.

(** ** Notions for the enricher *)

(** The array a response stands for, [None] when [fetchBatch] throws on
    it. *)
Definition responseItems (r : Response) : option (list Item) :=
  match r with
  | Http true (Some data_result) => Some (default [] data_result)
  | _ => None
  end.

(** [postcodes.slice(i, i + MAX_BATCH)] *)
Definition chunkAt (postcodes : list string) (i : nat) : list string :=
  take MAX_BATCH (drop i postcodes).

(** All three attempts for the chunk at offset [i] fail. *)
Definition exhausted (net : Net) (postcodes : list string) (i : nat) : Prop :=
  forall a, a < 3 -> responseItems (net i a (chunkAt postcodes i)) = None.







(** What a row holds for the field [f] of an item: the value of the result
    as it is, and the empty string when the result is [null] or the value
    is absent or [null]. *)
Definition storedValue (item : Item) (f : string) : jsval :=
  match result item ≫= (fun res : Row => res !! f) with
  | None | Some JNull => JStr ""
  | Some v => v
  end.

Definition fieldsMatch (item : Item) (row : Row) : Prop :=
  forall f, f ∈ FIELDS -> row !! f = Some (storedValue item f).


(** What holds of every row [enrich] returns. *)
Definition rowShape (row : Row) : Prop :=
  dom row = list_to_set HEADER /\
  (exists s, row !! "postcode" = Some (JStr s)) /\
  (forall f, f ∈ FIELDS -> exists v, row !! f = Some v /\ v <> JNull).

(** The array of the first attempt, among the three, that succeeds for the
    chunk at offset [i]. *)
Definition firstSuccess (net : Net) (postcodes : list string) (i : nat)
  : option (list Item) :=
  let chunk := chunkAt postcodes i in
  match responseItems (net i 0 chunk) with
  | Some items => Some items
  | None =>
      match responseItems (net i 1 chunk) with
      | Some items => Some items
      | None => responseItems (net i 2 chunk)
      end
  end.

(** The number of attempts, among the three, that fail before the first
    that succeeds. *)
Definition failuresBefore (net : Net) (postcodes : list string) (i : nat) : nat :=
  let chunk := chunkAt postcodes i in
  match responseItems (net i 0 chunk) with
  | Some _ => 0
  | None =>
      match responseItems (net i 1 chunk) with
      | Some _ => 1
      | None =>
          match responseItems (net i 2 chunk) with
          | Some _ => 2
          | None => 3
          end
      end
  end.


(** The items of all chunks, in order, each chunk by its first successful
    attempt. *)
Definition allItems (net : Net) (postcodes : list string) (l : list nat)
  : list Item :=
  concat ((fun i => default [] (firstSuccess net postcodes i)) <$> l).

(** Every value of the row is a string. *)
Definition allStrings (row : Row) : Prop :=
  forall k v, row !! k = Some v -> exists s, v = JStr s.

(** What [enrich] leaves alone: the table, the buttons and the download. *)
Definition sameArtifacts (e e' : Env) : Prop :=
  display e' = display e /\ table e' = table e /\
  runDisabled e' = runDisabled e /\ downloadDisabled e' = downloadDisabled e /\
  datasetUrl e' = datasetUrl e /\ datasetFilename e' = datasetFilename e /\
  blobs e' = blobs e /\ revoked e' = revoked e.

(** The result is a value. *)
Definition isOk {A} (r : Result A) : bool :=
  match r with Ok _ => true | Throw _ => false end.

(** The rows a run of [enrich] returns, none when it throws. *)
Definition enrichedRows (net : Net) (postcodes : list string) (e : Env)
  : list Row :=
  match (enrich net postcodes e).2 with
  | Ok rows => rows
  | Throw _ => []
  end.

(** ** Sample data *)

(** An array as the API sends it: a match, with a number for the latitude
    and [null] for the parish, and a query without a match. *)
Definition sampleItems : list Item :=
  [ mkItem (Some (JStr "sw1a 1aa"))
      (Some {[ "postcode" := JStr "SW1A 1AA"; "country" := JStr "England";
               "latitude" := JNum "51.501009"; "parish" := JNull ]});
    mkItem (Some (JStr "zz99 9zz")) None ].

Definition sampleCodes : list string := ["SW1A 1AA"; "ZZ99 9ZZ"].

(** A network that fails twice for every chunk and answers on the third
    attempt. *)
Definition sampleNet : Net := fun i attempt chunk =>
  if attempt <? 2 then TransportError else Http true (Some (Some sampleItems)).

(** A network that answers every request with a status that is not [ok]. *)
Definition deadNet : Net := fun i attempt chunk => Http false None.





(** ** Notions for the download *)

(** The text an object URL gives when it is fetched: the text it was made
    for, until it is revoked. *)
Definition blobText (e : Env) (url : nat) : option string :=
  if decide (url ∈ revoked e) then None else blobs e !! url.

(** Every object URL ever made is revoked, except the one the download
    button holds. *)
Definition noLeak (e : Env) : Prop :=
  (forall u, u < length (blobs e) -> u ∈ revoked e \/ datasetUrl e = Some u) /\
  (forall u, u ∈ revoked e -> u < length (blobs e)) /\
  (forall u, datasetUrl e = Some u -> u < length (blobs e) /\ u ∉ revoked e).

(** The anchors of the body were made by [download], and every one of them
    waits for its callback. *)
Definition anchorsPending (d : Doc) : Prop :=
  anchorId <$> body d = timers d /\
  Forall (fun id => id < created d) (timers d) /\
  NoDup (timers d).

(** ** Further notions for the CSV exporter *)

(** A name that [esc] would write as it is. *)
Definition plainName (h : string) : Prop :=
  Str.existsb needsQuoting h = false.

(** ** Further notions for the enricher *)

(** The requests [enrich] sends for the chunk at offset [i]: the chunk, once
    for every failed attempt and once more for the attempt that succeeds,
    three times at most. *)
Definition requestsFor (net : Net) (postcodes : list string) (i : nat)
  : list (list string) :=
  replicate (Nat.min (failuresBefore net postcodes i + 1) 3) (chunkAt postcodes i).

(** The sleeps of a chunk that is fetched: one after each failed attempt,
    then the pause that ends the chunk. *)
Definition sleepsFor (net : Net) (postcodes : list string) (i : nat) : list nat :=
  take (failuresBefore net postcodes i) [750; 1500; 2250] ++ [80].

(** The state in which the click handler calls [enrich]. *)
Definition runStart (e : Env) : Env :=
  setDisplay DisplayNone
    (setStatus StEnriching (setDownloadDisabled true (setRunDisabled true e))).

(** ** Notions for the click handlers *)

(** One click on the run button: the network it meets, the text of the
    input area and the instant read from the clock. *)
Record Run : Type := mkRun {
  runNet : Net;
  runInput : string;
  runIso : string
}.

(** The page after a series of clicks on the run button. *)
Definition afterRuns (runs : list Run) (e : Env) : Env :=
  fold_left (fun e r => runClick (runNet r) (runInput r) (runIso r) e) runs e.

(** The name [runClick] gives the file. *)
Definition fileName (iso : string) : string :=
  "postcodes_enriched_" +:+ timestamp iso +:+ ".csv".

(** Neither a colon nor the letter T. *)
Definition notColonOrT (c : ascii) : bool :=
  negb (Ascii.eqb c ":" || Ascii.eqb c "T").
(** * Properties *)

(** ** Strings *)

Section StrFacts.

Implicit Types (s t u : string) (c : ascii).

Lemma sapp_cons c s t : String c s +:+ t = String c (s +:+ t).
Proof. reflexivity. Qed.

Lemma sapp_nil_l s : "" +:+ s = s.
Proof. reflexivity. Qed.

Lemma sapp_nil_r s : s +:+ "" = s.
Proof. induction s as [|c s IH]; [done|]. by rewrite sapp_cons, IH. Qed.

Lemma sapp_assoc s t u : (s +:+ t) +:+ u = s +:+ (t +:+ u).
Proof. induction s as [|c s IH]; [done|]. by rewrite !sapp_cons, IH. Qed.

Lemma sapp_length s t :
  String.length (s +:+ t) = String.length s + String.length t.
Proof. induction s as [|c s IH]; [done|]. rewrite sapp_cons. simpl. by rewrite IH. Qed.

Lemma sapp_snoc_cons s c t : (s +:+ String c "") +:+ t = s +:+ String c t.
Proof. by rewrite sapp_assoc. Qed.

Lemma sapp_inv_tail_length s s' t t' :
  s +:+ t = s' +:+ t' -> String.length t = String.length t' ->
  s = s' /\ t = t'.
Proof.
  revert s'. induction s as [|c s IH]; intros [|c' s'] Heq Hlen.
  - done.
  - rewrite sapp_nil_l in Heq. subst t. rewrite sapp_length in Hlen.
    simpl in Hlen. lia.
  - rewrite sapp_nil_l in Heq. subst t'. rewrite sapp_length in Hlen.
    simpl in Hlen. lia.
  - rewrite !sapp_cons in Heq. injection Heq as -> Heq.
    destruct (IH _ Heq Hlen) as [-> ->]. done.
Qed.

Lemma take_app_length s t :
  Str.take (String.length (s +:+ t) - String.length t) (s +:+ t) = s.
Proof.
  rewrite sapp_length.
  replace (String.length s + String.length t - String.length t)
    with (String.length s) by lia.
  induction s as [|c s IH].
  - rewrite sapp_nil_l. by destruct t.
  - rewrite sapp_cons. simpl. by rewrite IH.
Qed.

Lemma isEmpty_true s : Str.isEmpty s = true <-> s = "".
Proof. by destruct s. Qed.

Lemma isEmpty_false s : Str.isEmpty s = false <-> s <> "".
Proof. by destruct s. Qed.

Lemma filter_app p s t :
  Str.filter p (s +:+ t) = Str.filter p s +:+ Str.filter p t.
Proof.
  induction s as [|c s IH]; [done|]. rewrite sapp_cons. simpl.
  destruct (p c); by rewrite ?sapp_cons, IH.
Qed.

Lemma filter_forallb p s : Str.forallb p s = true -> Str.filter p s = s.
Proof.
  induction s as [|c s IH]; [done|]. simpl.
  intros [Hc Hs]%andb_true_iff. by rewrite Hc, IH.
Qed.

Lemma forallb_filter p s : Str.forallb p (Str.filter p s) = true.
Proof.
  induction s as [|c s IH]; [done|]. simpl.
  destruct (p c) eqn:Hc; [|done]. simpl. by rewrite Hc.
Qed.

Lemma forallb_app p s t :
  Str.forallb p (s +:+ t) = Str.forallb p s && Str.forallb p t.
Proof.
  induction s as [|c s IH]; [done|]. rewrite sapp_cons. simpl.
  by rewrite IH, andb_assoc.
Qed.

Lemma forallb_impl (p q : ascii -> bool) s :
  (forall c, p c = true -> q c = true) ->
  Str.forallb p s = true -> Str.forallb q s = true.
Proof.
  intros Hpq. induction s as [|c s IH]; [done|]. simpl.
  intros [Hc Hs]%andb_true_iff. by rewrite (Hpq _ Hc), IH.
Qed.

Lemma flat_map_id f p s :
  (forall c, p c = true -> f c = String c "") ->
  Str.forallb p s = true -> Str.flat_map f s = s.
Proof.
  intros Hf. induction s as [|c s IH]; [done|]. simpl.
  intros [Hc Hs]%andb_true_iff. by rewrite (Hf _ Hc), IH.
Qed.

End StrFacts.

(** ** Character classes *)

Section ChrFacts.

Local Ltac by_cases c :=
  destruct c as [[] [] [] [] [] [] [] []]; vm_compute; intros; congruence.

Lemma upper_alnum c : Chr.isUpper c = true -> Chr.isAlnum c = true.
Proof. unfold Chr.isAlnum. by intros ->. Qed.

Lemma digit_alnum c : Chr.isDigit c = true -> Chr.isAlnum c = true.
Proof. unfold Chr.isAlnum. intros ->. by rewrite orb_true_r. Qed.

Lemma alnum_codeChar c : Chr.isAlnum c = true -> isCodeChar c = true.
Proof. unfold isCodeChar. by intros ->. Qed.

Lemma upper_codeChar c : isCodeChar c = true -> Chr.upper c = String c "".
Proof. by_cases c. Qed.

Lemma alnum_not_white c : Chr.isAlnum c = true -> Chr.isWhite c = false.
Proof. by_cases c. Qed.

Lemma codeChar_not_comma c :
  isCodeChar c = true -> Ascii.eqb c Chr.comma = false.
Proof. by_cases c. Qed.

Lemma codeChar_not_LF c : isCodeChar c = true -> Ascii.eqb c Chr.LF = false.
Proof. by_cases c. Qed.

Lemma codeChar_not_CR c : isCodeChar c = true -> Ascii.eqb c Chr.CR = false.
Proof. by_cases c. Qed.

End ChrFacts.

(** ** The matcher against the language of a regular expression *)

Module ReFacts.
Import Re.

(** A success of the matcher reads a word of the language. *)
Lemma exec_sound {A} r : forall s (k : string -> option A) a,
  exec r s k = Some a ->
  exists w s', s = w +:+ s' /\ lang r w /\ k s' = Some a.
Proof.
  induction r as [p|r1 IH1 r2 IH2|r1 IH1]; intros s k a H; simpl in H.
  - destruct s as [|c s]; [done|]. destruct (p c) eqn:Hc; [|done].
    exists (String c ""), s. simpl. eauto.
  - apply IH1 in H as (u & s1 & -> & Hu & H).
    apply IH2 in H as (v & s2 & -> & Hv & H).
    exists (u +:+ v), s2. rewrite sapp_assoc. simpl. eauto 10.
  - destruct (exec r1 s k) as [b|] eqn:E.
    + injection H as ->. apply IH1 in E as (w & s' & -> & Hw & Hk).
      exists w, s'. simpl. eauto.
    + exists "", s. simpl. eauto.
Qed.

(** The matcher succeeds whenever some word of the language can be read
    and the continuation accepts the rest. *)
Lemma exec_complete {A} r : forall w s' (k : string -> option A),
  lang r w -> is_Some (k s') -> is_Some (exec r (w +:+ s') k).
Proof.
  induction r as [p|r1 IH1 r2 IH2|r1 IH1]; intros w s' k Hw Hk; simpl in *.
  - destruct Hw as (c & -> & Hc). rewrite sapp_cons, sapp_nil_l. by rewrite Hc.
  - destruct Hw as (u & v & -> & Hu & Hv). rewrite sapp_assoc.
    apply IH1; [done|]. by apply IH2.
  - destruct Hw as [->|Hw].
    + rewrite sapp_nil_l. destruct (exec r1 s' k); [by eexists|done].
    + destruct (IH1 _ _ _ Hw Hk) as [b ->]. by eexists.
Qed.

End ReFacts.

Section ShapeFacts.
Import Re ReFacts.

Lemma lang_inward i : lang inwardRe i <-> isInward i.
Proof.
  unfold isInward. simpl. split.
  - intros (u & v & -> & (d & -> & Hd) & (u' & v' & -> & (a & -> & Ha) & (b & -> & Hb))).
    exists d, a, b. done.
  - intros (d & a & b & -> & Hd & Ha & Hb).
    exists (String d ""), (String a (String b "")). split; [done|].
    split; [by exists d|]. exists (String a ""), (String b "").
    split; [done|]. split; [by exists a | by exists b].
Qed.

Lemma lang_outward o : lang outwardRe o <-> isOutward o.
Proof.
  unfold isOutward. simpl. split.
  - intros (u & v & -> & (u1 & u2 & -> & (a & -> & Ha) & Hu2)
              & (v1 & v2 & -> & (d & -> & Hd) & Hv2)).
    exists (String a "" +:+ u2), d, v2. rewrite !sapp_assoc.
    split; [done|]. split; [|split; [|split; [done|]]].
    + destruct Hu2 as [->|(b & -> & Hb)]; simpl; by rewrite ?Ha, ?Hb.
    + destruct Hu2 as [->|(b & -> & Hb)]; simpl; lia.
    + destruct Hv2 as [->|(x & -> & Hx)]; [by left|right; eauto].
  - intros (letters & d & last & -> & Hl & Hlen & Hd & Hlast).
    destruct letters as [|a [|b [|c l]]]; simpl in Hlen; try lia.
    + simpl in Hl. rewrite andb_true_r in Hl.
      exists (String a ""), (String d last). split; [done|]. split.
      * exists (String a ""), "". repeat split; eauto.
      * exists (String d ""), last. repeat split; eauto.
    + simpl in Hl. rewrite andb_true_r in Hl.
      apply andb_true_iff in Hl as [Ha Hb].
      exists (String a (String b "")), (String d last). split; [done|]. split.
      * exists (String a ""), (String b ""). repeat split; eauto.
      * exists (String d ""), last. repeat split; eauto.
Qed.

Lemma inward_length i : isInward i -> String.length i = 3.
Proof. by intros (d & a & b & -> & _). Qed.

Lemma inward_alnum i : isInward i -> Str.forallb Chr.isAlnum i = true.
Proof.
  intros (d & a & b & -> & Hd & Ha & Hb). simpl.
  by rewrite (digit_alnum _ Hd), (upper_alnum _ Ha), (upper_alnum _ Hb).
Qed.

Lemma outward_alnum o : isOutward o -> Str.forallb Chr.isAlnum o = true.
Proof.
  intros (l & d & last & -> & Hl & _ & Hd & Hlast).
  rewrite forallb_app. simpl. rewrite (digit_alnum _ Hd).
  rewrite (forallb_impl _ _ _ upper_alnum Hl). simpl.
  destruct Hlast as [->|(x & -> & Hx)]; simpl; by rewrite ?Hx.
Qed.

Lemma outward_nonempty o : isOutward o -> o <> "".
Proof.
  intros (l & d & last & -> & _ & _). by destruct l.
Qed.

(** A match captures an outward and an inward part that make up the
    whole text. *)
Lemma matchPostcode_Some s o i :
  matchPostcode s = Some (o, i) ->
  s = o +:+ i /\ isOutward o /\ isInward i.
Proof.
  unfold matchPostcode. intros H.
  apply exec_sound in H as (w1 & s1 & Hs & Hw1 & H).
  apply exec_sound in H as (w2 & s2 & -> & Hw2 & H).
  destruct (Str.isEmpty s2) eqn:E; [|done].
  apply isEmpty_true in E as ->. rewrite sapp_nil_r in *.
  injection H as <- <-. subst s. rewrite take_app_length.
  split; [done|]. split; [by apply lang_outward | by apply lang_inward].
Qed.

(** Every text of the full shape is matched, and split where the inward
    part starts. *)
Lemma matchPostcode_shape o i :
  isOutward o -> isInward i -> matchPostcode (o +:+ i) = Some (o, i).
Proof.
  intros Ho Hi.
  assert (is_Some (matchPostcode (o +:+ i))) as [[o' i'] H].
  { unfold matchPostcode. apply exec_complete; [by apply lang_outward|].
    rewrite <- (sapp_nil_r i) at 1.
    apply exec_complete; [by apply lang_inward|]. simpl. by eexists. }
  rewrite H. apply matchPostcode_Some in H as (Heq & _ & Hi').
  apply sapp_inv_tail_length in Heq as [-> ->]; [done|].
  by rewrite (inward_length _ Hi), (inward_length _ Hi').
Qed.

End ShapeFacts.

(** ** Deduplication *)

Section DedupFacts.

Implicit Types (l : list string) (x y : string).

Lemma dedup_seen l : forall st,
  (fold_left dedupStep l st).1 = st.1 ∪ list_to_set l.
Proof.
  induction l as [|x l IH]; intros st; simpl.
  - set_solver.
  - rewrite IH. unfold dedupStep. case_decide; simpl; set_solver.
Qed.

Lemma dedup_snoc l x :
  dedup (l ++ [x]) = if decide (x ∈ l) then dedup l else dedup l ++ [x].
Proof.
  unfold dedup. rewrite fold_left_app. simpl. unfold dedupStep at 1.
  rewrite dedup_seen. simpl.
  destruct (decide (x ∈ l)) as [Hin|Hnin]; case_decide; try done; set_solver.
Qed.

Lemma elem_of_dedup l x : x ∈ dedup l <-> x ∈ l.
Proof.
  induction l as [|y l IH] using rev_ind; [done|].
  rewrite dedup_snoc. case_decide; set_solver.
Qed.

Lemma NoDup_dedup l : NoDup (dedup l).
Proof.
  induction l as [|y l IH] using rev_ind; [constructor|].
  rewrite dedup_snoc. case_decide; [done|].
  apply NoDup_app. split; [done|]. split; [|apply NoDup_singleton].
  intros z Hz Hz'. apply list_elem_of_singleton in Hz' as ->.
  by rewrite elem_of_dedup in Hz.
Qed.

Lemma dedup_NoDup l : NoDup l -> dedup l = l.
Proof.
  induction l as [|y l IH] using rev_ind; [done|].
  intros (Hl & Hy & _)%NoDup_app. rewrite dedup_snoc.
  case_decide as Hin.
  - exfalso. apply (Hy y Hin). by apply list_elem_of_singleton.
  - by rewrite IH.
Qed.

Lemma firstIndex_lt x l p : firstIndex x l = Some p -> p < length l.
Proof.
  revert p. induction l as [|y l IH]; intros p; simpl; [done|].
  case_decide; [intros [= <-]; lia|].
  destruct (firstIndex x l) as [q|]; [|done].
  intros [= <-]. specialize (IH q eq_refl). lia.
Qed.

Lemma firstIndex_elem x l : x ∈ l -> is_Some (firstIndex x l).
Proof.
  induction l as [|y l IH]; simpl; [by intros ?%elem_of_nil|].
  intros [->|Hin]%elem_of_cons; case_decide; try done; try (by exists 0).
  destruct (IH Hin) as [q ->]. by exists (S q).
Qed.

Lemma firstIndex_app_l x l l' p :
  firstIndex x l = Some p -> firstIndex x (l ++ l') = Some p.
Proof.
  revert p. induction l as [|y l IH]; intros p; simpl; [done|].
  case_decide; [done|].
  destruct (firstIndex x l) as [q|]; [|done].
  intros [= <-]. by rewrite (IH q eq_refl).
Qed.

Lemma firstIndex_snoc_new x l : x ∉ l -> firstIndex x (l ++ [x]) = Some (length l).
Proof.
  induction l as [|y l IH]; simpl.
  - intros _. by rewrite decide_True.
  - intros [Hne Hnin]%not_elem_of_cons. rewrite decide_False by done.
    by rewrite (IH Hnin).
Qed.

(** The codes come out in the order of their first occurrences. *)
Lemma dedup_order l : forall i j x y,
  dedup l !! i = Some x -> dedup l !! j = Some y -> i < j ->
  exists p q, firstIndex x l = Some p /\ firstIndex y l = Some q /\ p < q.
Proof.
  induction l as [|z l IH] using rev_ind; intros i j x y Hi Hj Hij; [done|].
  rewrite dedup_snoc in Hi, Hj. case_decide as Hz.
  - destruct (IH _ _ _ _ Hi Hj Hij) as (p & q & Hp & Hq & Hpq).
    exists p, q. eauto using firstIndex_app_l.
  - destruct (decide (j < length (dedup l))) as [Hlt|Hge].
    + rewrite lookup_app_l in Hi, Hj by lia.
      destruct (IH _ _ _ _ Hi Hj Hij) as (p & q & Hp & Hq & Hpq).
      exists p, q. eauto using firstIndex_app_l.
    + rewrite lookup_app_l in Hi.
      2:{ apply lookup_lt_Some in Hj. rewrite length_app in Hj. simpl in Hj. lia. }
      rewrite lookup_app_r in Hj by lia.
      apply list_lookup_singleton_Some in Hj as [_ <-].
      assert (x ∈ l) as Hx by (apply elem_of_dedup; by eapply list_elem_of_lookup_2).
      destruct (firstIndex_elem _ _ Hx) as [p Hp].
      exists p, (length l). split; [by apply firstIndex_app_l|].
      split; [by apply firstIndex_snoc_new|]. by eapply firstIndex_lt.
Qed.

End DedupFacts.

(** ** Splitting, joining and trimming *)

Section LineFacts.

Implicit Types (s t u w cur : string) (c : ascii) (l : list string).

Lemma splitLines_plain w : forall cur rest,
  Str.forallb notBreak w = true ->
  Str.splitLines cur (w +:+ rest) = Str.splitLines (cur +:+ w) rest.
Proof.
  induction w as [|c w IH]; intros cur rest Hw.
  - by rewrite sapp_nil_l, sapp_nil_r.
  - simpl in Hw. apply andb_true_iff in Hw as [Hc Hw].
    unfold notBreak in Hc. apply andb_true_iff in Hc as [H1 H2].
    apply negb_true_iff in H1, H2.
    rewrite sapp_cons. simpl. rewrite H1, H2.
    rewrite (IH _ _ Hw). by rewrite sapp_snoc_cons.
Qed.

Lemma splitLines_LF cur s :
  Str.splitLines cur (String Chr.LF s) = cur :: Str.splitLines "" s.
Proof. reflexivity. Qed.

Lemma splitLines_join l : forall cur x,
  Forall (fun y => Str.forallb notBreak y = true) (x :: l) ->
  Str.splitLines cur (Str.join (String Chr.LF "") (x :: l)) = (cur +:+ x) :: l.
Proof.
  induction l as [|y l IH]; intros cur x Hall.
  - simpl. rewrite <- (sapp_nil_r x) at 1.
    rewrite splitLines_plain by (by inversion Hall). done.
  - inversion Hall as [|? ? Hx Hl]; subst.
    change (Str.join (String Chr.LF "") (x :: y :: l))
      with (x +:+ String Chr.LF "" +:+ Str.join (String Chr.LF "") (y :: l)).
    rewrite splitLines_plain by done. rewrite sapp_cons, sapp_nil_l.
    rewrite splitLines_LF. by rewrite (IH "" y Hl).
Qed.

Lemma forallb_join p sep l :
  Str.forallb p sep = true ->
  Forall (fun y => Str.forallb p y = true) l ->
  Str.forallb p (Str.join sep l) = true.
Proof.
  intros Hsep. induction l as [|x l IH]; intros Hall; [done|].
  inversion Hall as [|? ? Hx Hl]; subst. destruct l as [|y l]; [done|].
  change (Str.join sep (x :: y :: l)) with (x +:+ sep +:+ Str.join sep (y :: l)).
  rewrite !forallb_app, Hx, Hsep. simpl. by apply IH.
Qed.

Lemma replaceAll_absent c t s :
  Str.forallb (fun x => negb (Ascii.eqb x c)) s = true ->
  Str.replaceAll c t s = s.
Proof.
  apply flat_map_id. intros x Hx. apply negb_true_iff in Hx. by rewrite Hx.
Qed.

Lemma trimEnd_notWhite s : Str.forallb notWhite s = true -> Str.trimEnd s = s.
Proof.
  induction s as [|c s IH]; [done|]. simpl.
  intros [Hc Hs]%andb_true_iff. rewrite (IH Hs).
  apply negb_true_iff in Hc. by rewrite Hc, andb_false_r.
Qed.

Lemma trimEnd_app u v :
  Str.trimEnd v <> "" -> Str.trimEnd (u +:+ v) = u +:+ Str.trimEnd v.
Proof.
  intros Hv. induction u as [|c u IH]; [done|].
  rewrite !sapp_cons. simpl. rewrite IH.
  destruct (u +:+ Str.trimEnd v) eqn:E; [|done].
  destruct u; [by rewrite sapp_nil_l in E|by rewrite sapp_cons in E].
Qed.

Lemma trimStart_notWhite c s :
  Chr.isWhite c = false -> Str.trimStart (String c s) = String c s.
Proof. simpl. by intros ->. Qed.

(** A text that starts and ends with characters that are not white
    space is left alone by [trim]. *)
Lemma trim_ends u w v :
  Str.forallb notWhite u = true -> u <> "" ->
  Str.forallb notWhite v = true -> v <> "" ->
  Str.trim (u +:+ w +:+ v) = u +:+ w +:+ v.
Proof.
  intros Hu Hune Hv Hvne. unfold Str.trim.
  destruct u as [|c u]; [done|]. simpl in Hu.
  apply andb_true_iff in Hu as [Hc _]. apply negb_true_iff in Hc.
  rewrite sapp_cons, (trimStart_notWhite _ _ Hc), <- sapp_cons.
  rewrite <- sapp_assoc, trimEnd_app; by rewrite trimEnd_notWhite.
Qed.

Lemma trim_notWhite s : Str.forallb notWhite s = true -> Str.trim s = s.
Proof.
  intros Hs. unfold Str.trim. destruct s as [|c s]; [done|].
  pose proof Hs as Hs'. simpl in Hs'. apply andb_true_iff in Hs' as [Hc _].
  apply negb_true_iff in Hc.
  by rewrite (trimStart_notWhite _ _ Hc), trimEnd_notWhite.
Qed.

End LineFacts.

(** ** The normalizer *)

Section NormalizeFacts.

Implicit Types (s t pc : string) (l : list string).

Lemma compactOf_alnum t : Str.forallb Chr.isAlnum (compactOf t) = true.
Proof. apply forallb_filter. Qed.

Lemma normalize_invalid t : lengthValid t = false -> normalize t = "".
Proof.
  unfold lengthValid, normalize. intros H.
  destruct (Nat.ltb_spec (String.length (compactOf t)) 5);
    destruct (Nat.ltb_spec 8 (String.length (compactOf t))); try done.
  exfalso. apply andb_false_iff in H as [H|H].
  - apply Nat.leb_gt in H. lia.
  - apply Nat.leb_gt in H. lia.
Qed.

Lemma normalize_valid t :
  lengthValid t = true -> normalize t = spaceInward (compactOf t).
Proof.
  unfold lengthValid, normalize. intros [H1 H2]%andb_true_iff.
  apply Nat.leb_le in H1, H2.
  destruct (Nat.ltb_spec (String.length (compactOf t)) 5); [lia|].
  destruct (Nat.ltb_spec 8 (String.length (compactOf t))); [lia|]. done.
Qed.

(** The two forms a normalized code takes. *)
Lemma spaceInward_cases s :
  (matchPostcode s = None /\ spaceInward s = s) \/
  (exists o i, s = o +:+ i /\ isOutward o /\ isInward i /\
               spaceInward s = o +:+ " " +:+ i).
Proof.
  unfold spaceInward. destruct (matchPostcode s) as [[o i]|] eqn:E.
  - right. apply matchPostcode_Some in E as (-> & Ho & Hi). eauto 10.
  - by left.
Qed.

Lemma normalize_nonempty t : lengthValid t = true -> normalize t <> "".
Proof.
  intros Hv. rewrite (normalize_valid _ Hv).
  destruct (spaceInward_cases (compactOf t)) as [[_ ->]|(o & i & _ & Ho & _ & ->)].
  - unfold lengthValid in Hv. apply andb_true_iff in Hv as [Hv _].
    apply Nat.leb_le in Hv. intros E. rewrite E in Hv. simpl in Hv. lia.
  - apply outward_nonempty in Ho. by destruct o.
Qed.

Lemma compactOf_codeChars s :
  Str.forallb isCodeChar s = true -> compactOf s = Str.filter Chr.isAlnum s.
Proof.
  intros Hs. unfold compactOf, Str.toUpperCase.
  by rewrite (flat_map_id _ _ _ upper_codeChar Hs).
Qed.

Lemma compactOf_fixed s : Str.forallb Chr.isAlnum s = true -> compactOf s = s.
Proof.
  intros Hs. rewrite compactOf_codeChars.
  - by apply filter_forallb.
  - by apply (forallb_impl _ _ _ alnum_codeChar).
Qed.

Lemma compactOf_spaced o i :
  Str.forallb Chr.isAlnum o = true -> Str.forallb Chr.isAlnum i = true ->
  compactOf (o +:+ " " +:+ i) = o +:+ i.
Proof.
  intros Ho Hi. rewrite compactOf_codeChars.
  - rewrite !filter_app, (filter_forallb _ _ Ho), (filter_forallb _ _ Hi). done.
  - rewrite !forallb_app.
    rewrite (forallb_impl _ _ _ alnum_codeChar Ho).
    by rewrite (forallb_impl _ _ _ alnum_codeChar Hi).
Qed.

(** What every normalized code of a length-valid token looks like. *)
Lemma normalize_canonical t :
  lengthValid t = true ->
  compactOf (normalize t) = compactOf t /\
  Str.trim (normalize t) = normalize t /\
  Str.forallb isCodeChar (normalize t) = true.
Proof.
  intros Hv. rewrite (normalize_valid _ Hv).
  pose proof (compactOf_alnum t) as Hal.
  destruct (spaceInward_cases (compactOf t))
    as [[_ ->]|(o & i & Hoi & Ho & Hi & ->)].
  - split; [by apply compactOf_fixed|]. split.
    + apply trim_notWhite. eapply forallb_impl; [|exact Hal].
      intros c Hc. unfold notWhite. by rewrite (alnum_not_white _ Hc).
    + by apply (forallb_impl _ _ _ alnum_codeChar).
  - pose proof (outward_alnum _ Ho) as Hao.
    pose proof (inward_alnum _ Hi) as Hai.
    assert (forall w, Str.forallb Chr.isAlnum w = true ->
                      Str.forallb notWhite w = true) as Hnw.
    { intros w. apply forallb_impl. intros c Hc. unfold notWhite.
      by rewrite (alnum_not_white _ Hc). }
    split; [by rewrite Hoi; apply compactOf_spaced|]. split.
    + apply trim_ends; auto using outward_nonempty.
      apply inward_length in Hi. intros ->. done.
    + rewrite !forallb_app.
      rewrite (forallb_impl _ _ _ alnum_codeChar Hao).
      by rewrite (forallb_impl _ _ _ alnum_codeChar Hai).
Qed.

Lemma lengthValid_normalize t :
  lengthValid t = true -> lengthValid (normalize t) = true.
Proof.
  intros Hv. unfold lengthValid.
  destruct (normalize_canonical _ Hv) as (-> & _). exact Hv.
Qed.

(** Normalizing a normalized code changes nothing. *)
Lemma normalize_idem t : normalize (normalize t) = normalize t.
Proof.
  destruct (lengthValid t) eqn:Hv.
  - rewrite (normalize_valid _ (lengthValid_normalize _ Hv)).
    destruct (normalize_canonical _ Hv) as (-> & _).
    by rewrite (normalize_valid _ Hv).
  - by rewrite (normalize_invalid _ Hv).
Qed.

(** The array [tokens] holds the normalized length-valid pieces. *)
Lemma tokens_valid raw :
  tokens raw = normalize <$> List.filter lengthValid (rawTokens raw).
Proof.
  unfold tokens. induction (rawTokens raw) as [|t l IH]; [done|].
  rewrite fmap_cons. simpl. destruct (lengthValid t) eqn:Hv.
  - pose proof (normalize_nonempty _ Hv) as Hne.
    apply isEmpty_false in Hne. rewrite Hne. simpl. by rewrite IH.
  - rewrite (normalize_invalid _ Hv). simpl. exact IH.
Qed.

Lemma elem_of_tokens raw pc :
  pc ∈ tokens raw <->
  exists t, t ∈ rawTokens raw /\ lengthValid t = true /\ pc = normalize t.
Proof.
  rewrite tokens_valid, list_elem_of_fmap. split.
  - intros (t & -> & Ht). apply list_elem_of_In, filter_In in Ht as [Ht Hv].
    exists t. by rewrite list_elem_of_In.
  - intros (t & Ht & Hv & ->). exists t. split; [done|].
    apply list_elem_of_In, filter_In. by rewrite <- list_elem_of_In.
Qed.

End NormalizeFacts.

Section ParseFacts.

Implicit Types (raw t pc : string) (l : list string).

Lemma parsePostcodes_elem raw pc :
  pc ∈ parsePostcodes raw ->
  exists t, t ∈ rawTokens raw /\ lengthValid t = true /\ pc = normalize t.
Proof. unfold parsePostcodes. rewrite elem_of_dedup. apply elem_of_tokens. Qed.

Lemma outward_length o : isOutward o -> String.length o <= 4.
Proof.
  intros (letters & d & last & -> & _ & Hlen & _ & Hlast).
  rewrite sapp_length. simpl.
  destruct Hlast as [->|(x & -> & _)]; simpl; lia.
Qed.

Lemma codeChar_notBreak s :
  Str.forallb isCodeChar s = true -> Str.forallb notBreak s = true.
Proof.
  apply forallb_impl. intros c Hc. unfold notBreak.
  by rewrite (codeChar_not_LF _ Hc), (codeChar_not_CR _ Hc).
Qed.

Lemma codeChar_notComma s :
  Str.forallb isCodeChar s = true ->
  Str.forallb (fun x => negb (Ascii.eqb x Chr.comma)) s = true.
Proof.
  apply forallb_impl. intros c Hc. by rewrite (codeChar_not_comma _ Hc).
Qed.

(** The pieces read back from a list of codes joined by line feeds. *)
Lemma rawTokens_join l :
  l <> [] ->
  Forall (fun pc => Str.forallb isCodeChar pc = true /\ Str.trim pc = pc) l ->
  rawTokens (Str.join (String Chr.LF "") l) = l.
Proof.
  intros Hne Hall. unfold rawTokens.
  rewrite replaceAll_absent.
  2:{ apply forallb_join; [done|]. eapply Forall_impl; [exact Hall|].
      intros pc [Hpc _]. by apply codeChar_notComma. }
  destruct l as [|x l]; [done|].
  rewrite splitLines_join.
  2:{ eapply Forall_impl; [exact Hall|]. intros pc [Hpc _].
      by apply codeChar_notBreak. }
  rewrite sapp_nil_l. clear Hne.
  induction Hall as [|y k [_ Hy] _ IH]; [done|].
  rewrite fmap_cons, Hy. by f_equal.
Qed.

Lemma normalize_fixed_list l :
  Forall (fun pc => lengthValid pc = true /\ normalize pc = pc) l ->
  normalize <$> List.filter lengthValid l = l.
Proof.
  induction 1 as [|pc k [Hv Hn] _ IH]; [done|].
  simpl. rewrite Hv, fmap_cons, Hn. by f_equal.
Qed.

End ParseFacts.

(** C3: for every raw text the list returned by [parsePostcodes] has no
    duplicates, holds exactly the normalized codes of the text, and lists
    them in the order of their first occurrences in the text; the text
    "SW1A 1AA, sw1a1aa<LF>SW1A  1AA" gives the single code "SW1A 1AA". *)
Theorem parsePostcodes_unique_in_first_occurrence_order :
  forall raw,
    NoDup (parsePostcodes raw) /\
    (forall pc, pc ∈ parsePostcodes raw <-> pc ∈ tokens raw) /\
    (forall i j x y,
        parsePostcodes raw !! i = Some x ->
        parsePostcodes raw !! j = Some y ->
        i < j ->
        exists p q,
          firstIndex x (tokens raw) = Some p /\
          firstIndex y (tokens raw) = Some q /\ p < q) /\
    parsePostcodes ("SW1A 1AA, sw1a1aa" +:+ String Chr.LF "SW1A  1AA")
      = ["SW1A 1AA"].
Proof.
  intros raw. unfold parsePostcodes at 1 2 3 4.
  split; [apply NoDup_dedup|]. split; [intros pc; apply elem_of_dedup|].
  split; [apply dedup_order|]. vm_compute. reflexivity.
Qed.

Lemma parsePostcodes_unique_in_first_occurrence_order_witness :
  exists p q,
    firstIndex "EF3 4GH" (tokens "ef34gh,AB1 2CD,EF3 4GH") = Some p /\
    firstIndex "AB1 2CD" (tokens "ef34gh,AB1 2CD,EF3 4GH") = Some q /\ p < q.
Proof.
  destruct (parsePostcodes_unique_in_first_occurrence_order
              "ef34gh,AB1 2CD,EF3 4GH") as (_ & _ & H & _).
  apply (H 0 1); [reflexivity | reflexivity | lia].
Defined.

(** C4: a token whose compacted form has fewer than 5 or more than 8
    characters normalizes to the empty text and is not in the output, which
    is computed from the length-valid tokens alone; [parsePostcodes] is a
    total function, so nothing is raised; and "AB" gives the empty list. *)
Theorem parsePostcodes_excludes_bad_length :
  forall raw t,
    String.length (compactOf t) < 5 \/ 8 < String.length (compactOf t) ->
    normalize t = "" /\
    (t ∉ parsePostcodes raw) /\
    parsePostcodes raw
      = dedup (normalize <$> List.filter lengthValid (rawTokens raw)) /\
    parsePostcodes "AB" = [].
Proof.
  intros raw t Hlen.
  assert (lengthValid t = false) as Hv.
  { unfold lengthValid. apply andb_false_iff.
    destruct Hlen; [left|right]; apply Nat.leb_gt; lia. }
  split; [by apply normalize_invalid|]. split; [|split].
  - intros (t' & _ & Hv' & ->)%parsePostcodes_elem.
    by rewrite (lengthValid_normalize _ Hv') in Hv.
  - unfold parsePostcodes. by rewrite tokens_valid.
  - vm_compute. reflexivity.
Qed.

Lemma parsePostcodes_excludes_bad_length_witness :
  normalize "AB" = "" /\ "AB" ∉ parsePostcodes "AB,SW1A 1AA".
Proof.
  destruct (parsePostcodes_excludes_bad_length "AB,SW1A 1AA" "AB") as (H1 & H2 & _).
  - left. vm_compute. lia.
  - split; assumption.
Defined.

(** C5: for a token whose compacted form has 5 to 8 characters, the
    normalized code is the compacted form with one space put before the
    inward part (a digit and two letters, its last three characters) when
    the compacted form is an outward part (one or two letters, a digit, and
    possibly one more letter or digit) followed by an inward part, and is
    the compacted form itself otherwise, in particular whenever it has 8
    characters; that code is in the output of [parsePostcodes] for every
    text the token is a piece of. *)
Theorem normalize_spaces_full_shape_only :
  forall t,
    5 <= String.length (compactOf t) <= 8 ->
    (forall o i,
        compactOf t = o +:+ i -> isOutward o -> isInward i ->
        normalize t = o +:+ " " +:+ i /\ String.length i = 3) /\
    ((forall o i, compactOf t = o +:+ i -> isOutward o -> ~ isInward i) ->
     normalize t = compactOf t) /\
    (String.length (compactOf t) = 8 -> normalize t = compactOf t) /\
    Str.forallb Chr.isAlnum (compactOf t) = true /\
    (forall raw, t ∈ rawTokens raw -> normalize t ∈ parsePostcodes raw).
Proof.
  intros t Hlen.
  assert (lengthValid t = true) as Hv.
  { unfold lengthValid. apply andb_true_iff. split; apply Nat.leb_le; lia. }
  rewrite (normalize_valid _ Hv).
  assert ((forall o i, compactOf t = o +:+ i -> isOutward o -> ~ isInward i) ->
          spaceInward (compactOf t) = compactOf t) as Hno.
  { intros Hno.
    destruct (spaceInward_cases (compactOf t)) as [[_ ->]|(o & i & E & Ho & Hi & _)];
      [done|]. by destruct (Hno _ _ E Ho). }
  split; [|split; [exact Hno|split; [|split; [apply compactOf_alnum|]]]].
  - intros o i E Ho Hi. split; [|by apply inward_length].
    unfold spaceInward. by rewrite E, (matchPostcode_shape _ _ Ho Hi).
  - intros H8. apply Hno. intros o i E Ho Hi.
    apply outward_length in Ho. apply inward_length in Hi.
    rewrite E, sapp_length in H8. lia.
  - intros raw Ht. unfold parsePostcodes. apply elem_of_dedup, elem_of_tokens.
    exists t. by rewrite (normalize_valid _ Hv).
Qed.

Lemma normalize_spaces_full_shape_only_witness :
  normalize "sw1a-1aa" = "SW1A" +:+ " " +:+ "1AA" /\
  (String.length (compactOf "ab12cdef") = 8 -> normalize "ab12cdef" = "AB12CDEF").
Proof.
  split.
  - assert (5 <= String.length (compactOf "sw1a-1aa") <= 8) as Hlen
      by (vm_compute; lia).
    destruct (normalize_spaces_full_shape_only "sw1a-1aa" Hlen) as (H & _).
    apply (H "SW1A" "1AA"); [reflexivity| |].
    + exists "SW", "1"%char, "A". repeat split; try reflexivity; try (simpl; lia).
      right. exists "A"%char. split; reflexivity.
    + exists "1"%char, "A"%char, "A"%char. repeat split; reflexivity.
  - assert (5 <= String.length (compactOf "ab12cdef") <= 8) as Hlen
      by (vm_compute; lia).
    destruct (normalize_spaces_full_shape_only "ab12cdef" Hlen) as (_ & _ & H & _).
    exact H.
Defined.

(** C10: joining the list returned by [parsePostcodes] with line feeds and
    parsing the result again gives the same list. *)
Theorem parsePostcodes_idempotent :
  forall raw,
    parsePostcodes (Str.join (String Chr.LF "") (parsePostcodes raw))
      = parsePostcodes raw.
Proof.
  intros raw.
  destruct (parsePostcodes raw) as [|x l] eqn:E; [vm_compute; reflexivity|].
  rewrite <- E.
  assert (Forall (fun pc => lengthValid pc = true /\ normalize pc = pc /\
                            Str.forallb isCodeChar pc = true /\ Str.trim pc = pc)
                 (parsePostcodes raw)) as Hall.
  { apply Forall_forall. intros pc (t & _ & Hv & ->)%parsePostcodes_elem.
    destruct (normalize_canonical _ Hv) as (_ & Htrim & Hchars).
    split; [by apply lengthValid_normalize|].
    split; [by apply normalize_idem|]. done. }
  unfold parsePostcodes at 1. rewrite tokens_valid, rawTokens_join.
  - rewrite normalize_fixed_list.
    2:{ eapply Forall_impl; [exact Hall|]. by intros pc (? & ? & _). }
    apply dedup_NoDup. unfold parsePostcodes. apply NoDup_dedup.
  - by rewrite E.
  - eapply Forall_impl; [exact Hall|]. by intros pc (_ & _ & ? & ?).
Qed.

(** ** The CSV exporter *)

Section CsvFacts.

Implicit Types (s t cur rest : string) (c : ascii) (fields : list string)
  (recs : list (list string)) (header : list string) (rows : list Row).

Lemma join_cons sep x y l :
  Str.join sep (x :: y :: l) = x +:+ sep +:+ Str.join sep (y :: l).
Proof. reflexivity. Qed.

Lemma fold_left_push {A B} (f : A -> B) (l : list A) : forall acc,
  fold_left (fun acc x => acc ++ [f x]) l acc = acc ++ (f <$> l).
Proof.
  induction l as [|x l IH]; intros acc; simpl.
  - by rewrite app_nil_r.
  - rewrite IH. by rewrite <- app_assoc.
Qed.

(** The loop of [toCSV] pushes the line of each row, in order. *)
Lemma toCSV_lines rows header :
  toCSV rows header
  = Str.join (String Chr.LF "") (Str.join "," header :: (csvLine header <$> rows)).
Proof. unfold toCSV. by rewrite fold_left_push. Qed.

Lemma join_LF_rowLines header rows x :
  Str.join (String Chr.LF "") (x :: (csvLine header <$> rows))
  = x +:+ rowLines header rows.
Proof.
  revert x. induction rows as [|r rows IH]; intros x.
  - simpl. by rewrite sapp_nil_r.
  - rewrite fmap_cons, join_cons, IH. simpl. by rewrite sapp_cons, sapp_nil_l.
Qed.

Lemma toCSV_text rows header :
  toCSV rows header = Str.join "," header +:+ rowLines header rows.
Proof. by rewrite toCSV_lines, join_LF_rowLines. Qed.

End CsvFacts.

(** ** Reading back the text of [toCSV] *)

Section CsvRoundTrip.

Implicit Types (s t w cur rest : string) (c : ascii) (fields : list string)
  (recs : list (list string)) (header : list string) (rows : list Row)
  (vals : list (option jsval)).

Lemma needsQuoting_false c :
  needsQuoting c = false ->
  Ascii.eqb c Chr.dquote = false /\ Ascii.eqb c Chr.comma = false /\
  Ascii.eqb c Chr.LF = false.
Proof.
  unfold needsQuoting. intros H.
  apply orb_false_iff in H as [H H3]. apply orb_false_iff in H as [H1 H2]. done.
Qed.

(** An unquoted field is read character by character. *)
Lemma run_plain w : forall cur fields recs rest,
  Str.existsb needsQuoting w = false ->
  Csv.run Csv.Plain cur fields recs (w +:+ rest)
  = Csv.run Csv.Plain (cur +:+ w) fields recs rest.
Proof.
  induction w as [|c w IH]; intros cur fields recs rest Hw.
  - by rewrite sapp_nil_l, sapp_nil_r.
  - simpl in Hw. apply orb_false_iff in Hw as [Hc Hw].
    apply needsQuoting_false in Hc as (H1 & H2 & H3).
    rewrite sapp_cons. simpl. rewrite H1, H2, H3.
    rewrite (IH _ _ _ _ Hw). by rewrite sapp_snoc_cons.
Qed.

(** Inside a quoted field every character is data and a doubled quote is
    one quote, up to the closing quote. *)
Lemma run_quoted t : forall cur fields recs rest,
  Csv.run Csv.Quoted cur fields recs
    (Str.replaceAll Chr.dquote (String Chr.dquote (String Chr.dquote "")) t
     +:+ String Chr.dquote rest)
  = Csv.run Csv.QuoteSeen (cur +:+ t) fields recs rest.
Proof.
  induction t as [|c t IH]; intros cur fields recs rest.
  - rewrite sapp_nil_r. reflexivity.
  - unfold Str.replaceAll. simpl Str.flat_map.
    fold (Str.replaceAll Chr.dquote (String Chr.dquote (String Chr.dquote "")) t).
    destruct (Ascii.eqb c Chr.dquote) eqn:Hc.
    + apply Ascii.eqb_eq in Hc as ->.
      rewrite !sapp_cons, sapp_nil_l. simpl Csv.run at 1.
      rewrite IH. by rewrite sapp_snoc_cons.
    + rewrite !sapp_cons, sapp_nil_l. simpl Csv.run at 1. rewrite Hc.
      rewrite IH. by rewrite sapp_snoc_cons.
Qed.

Lemma run_comma cur fields recs s :
  Csv.run Csv.Plain cur fields recs (String Chr.comma s)
  = Csv.run Csv.Plain "" (fields ++ [cur]) recs s.
Proof. reflexivity. Qed.

Lemma run_LF cur fields recs s :
  Csv.run Csv.Plain cur fields recs (String Chr.LF s)
  = Csv.run Csv.Plain "" [] (recs ++ [fields ++ [cur]]) s.
Proof. reflexivity. Qed.

Lemma run_open_quote fields recs s :
  Csv.run Csv.Plain "" fields recs (String Chr.dquote s)
  = Csv.run Csv.Quoted "" fields recs s.
Proof. reflexivity. Qed.

Lemma run_boundary cur fields recs rest :
  atBoundary rest ->
  Csv.run Csv.QuoteSeen cur fields recs rest
  = Csv.run Csv.Plain cur fields recs rest.
Proof. intros [->|(c & s & -> & [->| ->])]; reflexivity. Qed.

(** One escaped value, up to the end of its field. *)
Lemma run_esc v fields recs rest :
  atBoundary rest ->
  Csv.run Csv.Plain "" fields recs (esc v +:+ rest)
  = Csv.run Csv.Plain (cellText v) fields recs rest.
Proof.
  intros Hrest.
  assert (forall x : jsval, x <> JNull ->
            Csv.run Csv.Plain "" fields recs (esc (Some x) +:+ rest)
            = Csv.run Csv.Plain (toString x) fields recs rest) as Hval.
  { intros x Hx.
    assert (esc (Some x) =
            if Str.existsb needsQuoting (toString x)
            then String Chr.dquote
                   (Str.replaceAll Chr.dquote
                      (String Chr.dquote (String Chr.dquote "")) (toString x)
                    +:+ String Chr.dquote "")
            else toString x) as -> by (by destruct x).
    destruct (Str.existsb needsQuoting (toString x)) eqn:E.
    - rewrite sapp_cons, sapp_snoc_cons, run_open_quote.
      by rewrite run_quoted, run_boundary.
    - by rewrite run_plain. }
  destruct v as [[]|]; try (by apply Hval); by rewrite sapp_nil_l.
Qed.

(** One line of values: its fields are the texts of the values. *)
Lemma run_line vals : forall v fields recs,
  Csv.run Csv.Plain "" fields recs (Str.join "," (esc <$> (v :: vals)))
  = recs ++ [fields ++ (cellText <$> (v :: vals))] /\
  forall s,
    Csv.run Csv.Plain "" fields recs
      (Str.join "," (esc <$> (v :: vals)) +:+ String Chr.LF s)
    = Csv.run Csv.Plain "" [] (recs ++ [fields ++ (cellText <$> (v :: vals))]) s.
Proof.
  induction vals as [|v' vals IH]; intros v fields recs.
  - change (Str.join "," (esc <$> [v])) with (esc v). split.
    + rewrite <- (sapp_nil_r (esc v)). rewrite run_esc by (by left). done.
    + intros s. rewrite run_esc by (right; eauto). by rewrite run_LF.
  - rewrite !fmap_cons, join_cons. rewrite <- !fmap_cons.
    destruct (IH v' (fields ++ [cellText v]) recs) as [IH1 IH2].
    split.
    + rewrite run_esc by (right; eauto).
      change ("," +:+ ?x) with (String Chr.comma x).
      rewrite run_comma, IH1. by rewrite <- app_assoc.
    + intros s. rewrite !sapp_assoc.
      rewrite run_esc by (right; eauto).
      change ("," +:+ ?x) with (String Chr.comma x).
      rewrite run_comma, IH2. by rewrite <- app_assoc.
Qed.

Lemma csvLine_vals header (r : Row) :
  csvLine header r = Str.join "," (esc <$> ((fun h => r !! h) <$> header)).
Proof. unfold csvLine. by rewrite <- list_fmap_compose. Qed.

Lemma rowValues_vals header (r : Row) :
  rowValues header r = cellText <$> ((fun h => r !! h) <$> header).
Proof. unfold rowValues. by rewrite <- list_fmap_compose. Qed.

(** The lines of the rows, read back. *)
Lemma run_rows header rows : forall (x : Row) recs,
  header <> [] ->
  Csv.run Csv.Plain "" [] recs
    (Str.join (String Chr.LF "") (csvLine header <$> (x :: rows)))
  = recs ++ (rowValues header <$> (x :: rows)).
Proof.
  induction rows as [|y rows IH]; intros x recs Hne.
  - change (Str.join (String Chr.LF "") (csvLine header <$> [x]))
      with (csvLine header x).
    change (rowValues header <$> [x]) with [rowValues header x].
    rewrite csvLine_vals, rowValues_vals.
    destruct header as [|h header]; [done|].
    destruct (run_line ((fun h => x !! h) <$> header) (x !! h) [] recs) as [H _].
    exact H.
  - change (csvLine header <$> (x :: y :: rows))
      with (csvLine header x :: csvLine header y :: (csvLine header <$> rows)).
    rewrite join_cons.
    change (csvLine header y :: (csvLine header <$> rows))
      with (csvLine header <$> (y :: rows)).
    change (rowValues header <$> (x :: y :: rows))
      with (rowValues header x :: (rowValues header <$> (y :: rows))).
    rewrite sapp_cons, sapp_nil_l.
    rewrite (csvLine_vals header x), (rowValues_vals header x).
    destruct header as [|h header]; [done|].
    destruct (run_line ((fun h => x !! h) <$> header) (x !! h) [] recs) as [_ H].
    etrans; [apply H|]. rewrite IH by done. rewrite <- app_assoc. done.
Qed.

(** A header line without quotes and line feeds is read as one record,
    whatever follows it. *)
Lemma run_header w : forall cur fields,
  Str.forallb notQuoteOrLF w = true ->
  exists cur' fields', forall recs rest,
    Csv.run Csv.Plain cur fields recs (w +:+ rest)
    = Csv.run Csv.Plain cur' fields' recs rest.
Proof.
  induction w as [|c w IH]; intros cur fields Hw.
  - exists cur, fields. intros. by rewrite sapp_nil_l.
  - simpl in Hw. apply andb_true_iff in Hw as [Hc Hw].
    unfold notQuoteOrLF in Hc. apply andb_true_iff in Hc as [H1 H2].
    apply negb_true_iff in H1, H2.
    destruct (Ascii.eqb c Chr.comma) eqn:H3.
    + destruct (IH "" (fields ++ [cur]) Hw) as (cur' & fields' & H).
      exists cur', fields'. intros recs rest.
      rewrite sapp_cons. simpl. rewrite H3. apply H.
    + destruct (IH (cur +:+ String c "") fields Hw) as (cur' & fields' & H).
      exists cur', fields'. intros recs rest.
      rewrite sapp_cons. simpl. rewrite H1, H2, H3. apply H.
Qed.

End CsvRoundTrip.

(** The records after the header record are the values of the rows. *)
Lemma dataRows_toCSV (rows : list Row) (header : list string) :
  header <> [] ->
  Forall (fun h => Str.forallb notQuoteOrLF h = true) header ->
  Csv.dataRows (toCSV rows header) = rowValues header <$> rows.
Proof.
  intros Hne Hall.
  rewrite toCSV_text. unfold Csv.dataRows, Csv.parse.
  assert (Str.forallb notQuoteOrLF (Str.join "," header) = true) as Hhdr
    by (by apply forallb_join).
  destruct (run_header _ "" [] Hhdr) as (cur' & fields' & Hrun).
  rewrite Hrun. destruct rows as [|x rows]; [done|].
  simpl rowLines. rewrite sapp_cons, <- join_LF_rowLines, run_LF.
  change (csvLine header x :: (csvLine header <$> rows))
    with (csvLine header <$> (x :: rows)).
  by rewrite run_rows.
Qed.

Lemma HEADER_plain : Forall (fun h => Str.forallb notQuoteOrLF h = true) HEADER.
Proof. repeat constructor. Qed.

(** ** The two readers *)

Section CsvReaders.

Implicit Types (s w cur rest : string) (fields : list string)
  (recs : list (list string)) (header names : list string) (rows : list Row).

(** The readers agree on a text whose last record is not the record of one
    empty field. *)
Lemma runStd_run s : forall m cur fields recs,
  last (Csv.run m cur fields recs s) <> Some [""] ->
  Csv.runStd m cur fields recs s = Csv.run m cur fields recs s.
Proof.
  induction s as [|c s IH]; intros m cur fields recs H.
  - simpl in *. destruct m, fields, cur; try done.
    by rewrite last_snoc in H.
  - simpl in *. destruct m; repeat case_match; by apply IH.
Qed.

(** The fields of a header line are at least as many as its commas. *)
Lemma run_header_fields w : forall cur fields,
  Str.forallb notQuoteOrLF w = true ->
  exists cur' fields',
    length fields <= length fields' /\
    forall recs rest,
      Csv.run Csv.Plain cur fields recs (w +:+ rest)
      = Csv.run Csv.Plain cur' fields' recs rest.
Proof.
  induction w as [|c w IH]; intros cur fields Hw.
  - exists cur, fields. split; [done|]. intros. by rewrite sapp_nil_l.
  - simpl in Hw. apply andb_true_iff in Hw as [Hc Hw].
    unfold notQuoteOrLF in Hc. apply andb_true_iff in Hc as [H1 H2].
    apply negb_true_iff in H1, H2.
    destruct (Ascii.eqb c Chr.comma) eqn:H3.
    + destruct (IH "" (fields ++ [cur]) Hw) as (cur' & fields' & Hlen & H).
      exists cur', fields'. rewrite length_app in Hlen. split; [simpl in Hlen; lia|].
      intros recs rest. rewrite sapp_cons. simpl. rewrite H3. apply H.
    + destruct (IH (cur +:+ String c "") fields Hw) as (cur' & fields' & Hlen & H).
      exists cur', fields'. split; [done|]. intros recs rest.
      rewrite sapp_cons. simpl. rewrite H1, H2, H3. apply H.
Qed.

Lemma run_names names : forall name cur fields,
  Forall (fun h => Str.forallb notQuoteOrLF h = true) (name :: names) ->
  exists cur' fields',
    length fields + length names <= length fields' /\
    forall recs rest,
      Csv.run Csv.Plain cur fields recs (Str.join "," (name :: names) +:+ rest)
      = Csv.run Csv.Plain cur' fields' recs rest.
Proof.
  induction names as [|name' names IH]; intros name cur fields Hall.
  - inversion Hall as [|? ? Hn _]; subst.
    destruct (run_header_fields name cur fields Hn) as (cur' & fields' & Hlen & H).
    exists cur', fields'. split; [simpl; lia|]. exact H.
  - inversion Hall as [|? ? Hn Hrest]; subst.
    destruct (run_header_fields name cur fields Hn) as (cur1 & fields1 & Hlen1 & H1).
    destruct (IH name' "" (fields1 ++ [cur1]) Hrest) as (cur' & fields' & Hlen & H).
    exists cur', fields'. rewrite length_app in Hlen. split; [simpl in *; lia|].
    intros recs rest. rewrite join_cons, !sapp_assoc, H1.
    change ("," +:+ ?x) with (String Chr.comma x).
    rewrite run_comma. apply H.
Qed.

(** The whole text of [toCSV], read back: a header record of as many
    fields as there are names, at least, and the values of the rows. *)
Lemma parse_toCSV rows header :
  header <> [] ->
  Forall (fun h => Str.forallb notQuoteOrLF h = true) header ->
  exists hrec,
    length header <= length hrec /\
    Csv.parse (toCSV rows header) = hrec :: (rowValues header <$> rows).
Proof.
  intros Hne Hall. destruct header as [|name names]; [done|].
  destruct (run_names names name "" [] Hall) as (cur' & fields' & Hlen & Hrun).
  exists (fields' ++ [cur']). split.
  { rewrite length_app. simpl in *. lia. }
  rewrite toCSV_text. unfold Csv.parse. rewrite Hrun.
  destruct rows as [|x rows]; [done|].
  simpl rowLines. rewrite sapp_cons, <- join_LF_rowLines, run_LF.
  change (csvLine (name :: names) x :: (csvLine (name :: names) <$> rows))
    with (csvLine (name :: names) <$> (x :: rows)).
  by rewrite run_rows.
Qed.

Lemma last_not_single (l : list (list string)) :
  Forall (fun r => 2 <= length r) l -> last l <> Some [""].
Proof.
  intros Hall Hlast. apply last_Some_elem_of in Hlast.
  rewrite Forall_forall in Hall. apply Hall in Hlast. simpl in Hlast. lia.
Qed.

(** With two names or more no line of the text is empty, and the two
    readers find the same records. *)
Lemma parseStd_toCSV rows header :
  2 <= length header ->
  Forall (fun h => Str.forallb notQuoteOrLF h = true) header ->
  Csv.parseStd (toCSV rows header) = Csv.parse (toCSV rows header).
Proof.
  intros Hlen Hall. apply runStd_run. fold (Csv.parse (toCSV rows header)).
  destruct (parse_toCSV rows header) as (hrec & Hh & ->); [|done|].
  { intros ->. simpl in Hlen. lia. }
  apply last_not_single. constructor; [lia|].
  apply Forall_fmap, Forall_true. intros r. simpl.
  unfold rowValues. by rewrite length_fmap.
Qed.

End CsvReaders.

(** C1, as amended: for every list of rows and every header list of two
    names or more that hold no double quote and no line feed, the records a
    comma- and quote-aware reader finds after the header record in the text
    of [toCSV] are, row by row, the texts of the values of the rows in
    header order, and this whether or not the reader takes the end of the
    text for the end of a record that has not begun; a value that is a
    string comes back character by character, commas, quotes and line feeds
    included. *)
Theorem toCSV_round_trip :
  forall (rows : list Row) (header : list string),
    2 <= length header ->
    Forall (fun h => Str.forallb notQuoteOrLF h = true) header ->
    Csv.dataRowsStd (toCSV rows header) = rowValues header <$> rows /\
    Csv.dataRows (toCSV rows header) = rowValues header <$> rows /\
    (forall i k (r : Row) h s,
        rows !! i = Some r -> header !! k = Some h -> r !! h = Some (JStr s) ->
        exists record,
          Csv.dataRowsStd (toCSV rows header) !! i = Some record /\
          record !! k = Some s).
Proof.
  intros rows header Hlen Hall.
  assert (header <> []) as Hne by (intros ->; simpl in Hlen; lia).
  pose proof (dataRows_toCSV rows header Hne Hall) as Hrt.
  assert (Csv.dataRowsStd (toCSV rows header) = rowValues header <$> rows) as Hstd.
  { unfold Csv.dataRowsStd. rewrite parseStd_toCSV by done. exact Hrt. }
  split; [exact Hstd|]. split; [exact Hrt|].
  intros i k r h s Hi Hk Hs. exists (rowValues header r). split.
  - by rewrite Hstd, list_lookup_fmap, Hi.
  - unfold rowValues. rewrite list_lookup_fmap, Hk. simpl. by rewrite Hs.
Qed.

Lemma toCSV_round_trip_witness :
  Csv.dataRowsStd
    (toCSV [ {[ "postcode" := JStr "AB1 2CD"; "country" := JStr "England, GB" ]};
             {[ "postcode" := JStr ""; "country" := JStr "" ]} ]
           ["postcode"; "country"])
  = [ ["AB1 2CD"; "England, GB"]; [""; ""] ].
Proof.
  refine (eq_trans
    (proj1 (toCSV_round_trip
       [ {[ "postcode" := JStr "AB1 2CD"; "country" := JStr "England, GB" ]};
         {[ "postcode" := JStr ""; "country" := JStr "" ]} ]
       ["postcode"; "country"] _ _)) _).
  - simpl. lia.
  - repeat constructor.
  - vm_compute. reflexivity.
Defined.

(** C1, as stated, fails: a header name with a line feed in it is written
    unescaped, so either reader finds one record more than there are
    rows. *)
Lemma toCSV_round_trip_fails_for_header_with_line_feed :
  Csv.dataRowsStd
    (toCSV [ {[ "a" +:+ String Chr.LF "b" := JStr "v" ]} ]
           ["a" +:+ String Chr.LF "b"])
  = [ ["b"]; ["v"] ] /\
  Csv.dataRows
    (toCSV [ {[ "a" +:+ String Chr.LF "b" := JStr "v" ]} ]
           ["a" +:+ String Chr.LF "b"])
  = [ ["b"]; ["v"] ] /\
  rowValues ["a" +:+ String Chr.LF "b"]
    <$> [ {[ "a" +:+ String Chr.LF "b" := JStr "v" ]} ]
  = [ ["v"] ].
Proof. repeat split; vm_compute; reflexivity. Qed.

(** With an empty header every row is written as an empty line: the one
    reader finds a record of one empty field for it, the other no record,
    and neither the record of no field. *)
Lemma toCSV_round_trip_fails_for_empty_header :
  Csv.dataRows (toCSV [ (∅ : Row) ] []) = [ [""] ] /\
  Csv.dataRowsStd (toCSV [ (∅ : Row) ] []) = [] /\
  rowValues [] <$> [ (∅ : Row) ] = [ [] ].
Proof. repeat split; vm_compute; reflexivity. Qed.

(** With one name a row that holds the empty text is written as an empty
    line; when it is the last one, the text ends with a line feed, which
    the reader that follows RFC 4180 takes for the end of the record
    before it: the row is lost. *)
Lemma toCSV_round_trip_fails_for_single_empty_cell :
  toCSV [ {[ "a" := JStr "" ]} ] ["a"] = String "a" (String Chr.LF "") /\
  Csv.dataRowsStd (toCSV [ {[ "a" := JStr "" ]} ] ["a"]) = [] /\
  Csv.dataRows (toCSV [ {[ "a" := JStr "" ]} ] ["a"]) = [ [""] ] /\
  rowValues ["a"] <$> [ ({[ "a" := JStr "" ]} : Row) ] = [ [""] ].
Proof. repeat split; vm_compute; reflexivity. Qed.

(** C2: the text of [toCSV] is the header names joined by commas, written
    as they are, followed for each row by a line feed and the escaped
    values of the row in header order joined by commas, and nothing after
    the last line; [null] and [undefined] are written as the empty text, a
    value whose text holds a comma, a double quote or a line feed is written
    between double quotes with every double quote doubled, and any other
    value is written as its text; the row
    [{postcode: "AB1 2CD", country: "England, GB"}] under the header
    [postcode, country] gives the two lines of the specification. *)
Theorem toCSV_format :
  forall (rows : list Row) (header : list string),
    toCSV rows header = Str.join "," header +:+ rowLines header rows /\
    (forall r : Row,
        csvLine header r = Str.join "," ((fun h => esc (r !! h)) <$> header)) /\
    esc None = "" /\ esc (Some JNull) = "" /\
    (forall x, x <> JNull ->
        Str.existsb needsQuoting (toString x) = true ->
        esc (Some x) =
          String Chr.dquote
            (Str.replaceAll Chr.dquote (String Chr.dquote (String Chr.dquote ""))
               (toString x) +:+ String Chr.dquote "")) /\
    (forall x, x <> JNull ->
        Str.existsb needsQuoting (toString x) = false ->
        esc (Some x) = toString x) /\
    (forall c, needsQuoting c = true <->
               c = Chr.comma \/ c = Chr.dquote \/ c = Chr.LF) /\
    toCSV [ {[ "postcode" := JStr "AB1 2CD"; "country" := JStr "England, GB" ]} ]
          ["postcode"; "country"]
    = "postcode,country"
      +:+ String Chr.LF
            ("AB1 2CD," +:+ String Chr.dquote ("England, GB" +:+ String Chr.dquote "")).
Proof.
  intros rows header.
  split; [apply toCSV_text|]. split; [done|]. split; [done|]. split; [done|].
  split; [|split; [|split]].
  - intros x Hx E. destruct x; try done; simpl; simpl in E; by rewrite ?E.
  - intros x Hx E. destruct x; try done; simpl; simpl in E; by rewrite ?E.
  - intros c. unfold needsQuoting. rewrite !orb_true_iff, !Ascii.eqb_eq. tauto.
  - vm_compute. reflexivity.
Qed.

Lemma toCSV_format_witness :
  esc (Some (JStr ("say " +:+ String Chr.dquote "hi")))
  = String Chr.dquote
      ("say " +:+ String Chr.dquote (String Chr.dquote "hi") +:+ String Chr.dquote "").
Proof.
  refine (eq_trans
    (proj1 (proj2 (proj2 (proj2 (proj2 (toCSV_format [] [])))))
       (JStr ("say " +:+ String Chr.dquote "hi")) _ _) _).
  - discriminate.
  - vm_compute. reflexivity.
  - vm_compute. reflexivity.
Defined.

(** ** Computations *)

Section MonadFacts.

Context {A B : Type}.
Implicit Types (m : M A) (f : A -> M B) (e : Env).

Lemma bind_inv_ok m f e e2 b :
  (m ≫= f) e = (e2, Ok b) -> exists e1 a, m e = (e1, Ok a) /\ f a e1 = (e2, Ok b).
Proof.
  unfold mbind, M_bind. destruct (m e) as [e1 [a|msg]]; [eauto|done].
Qed.

End MonadFacts.

(** ** Upper case *)

Section UpperCaseFacts.

Implicit Types (c : ascii) (p s u : string).








End UpperCaseFacts.

(** ** The batch enricher *)

Section EnrichFacts.

Implicit Types (net : Net) (e : Env) (item : Item) (row : Row)
  (rows : list Row) (items : list Item) (chunk postcodes : list string).

Lemma fetchBatch_ok net i a chunk e items :
  responseItems (net i a chunk) = Some items ->
  fetchBatch net i a chunk e = (addSent chunk e, Ok items).
Proof.
  unfold fetchBatch, responseItems, mbind, M_bind, modify. simpl.
  destruct (net i a chunk) as [|[] [d|]]; try done. by intros [= <-].
Qed.

Lemma fetchBatch_fail net i a chunk e :
  responseItems (net i a chunk) = None ->
  exists msg, fetchBatch net i a chunk e = (addSent chunk e, Throw msg).
Proof.
  unfold fetchBatch, responseItems, mbind, M_bind, modify. simpl.
  destruct (net i a chunk) as [|[] [d|]]; try done; by eexists.
Qed.

Lemma attempts_ok net i chunk n a e items :
  responseItems (net i a chunk) = Some items ->
  attempts net i chunk (S n) a e = (addSent chunk e, Ok (Some items)).
Proof.
  intros H. simpl. unfold mbind, M_bind, attemptM.
  by rewrite (fetchBatch_ok _ _ _ _ _ _ H).
Qed.

Lemma attempts_fail net i chunk n a e :
  responseItems (net i a chunk) = None ->
  attempts net i chunk (S n) a e
  = attempts net i chunk n (a + 1)
      (addSlept (750 * (a + 1)) (setStatus (StRetrying (a + 1)) (addSent chunk e))).
Proof.
  intros H. simpl attempts. unfold mbind at 1, M_bind at 1, attemptM.
  destruct (fetchBatch_fail _ _ _ _ e H) as [msg ->]. reflexivity.
Qed.

(** Writing the fields of a row one after the other. *)
Lemma fold_insert_lookup (g : string -> jsval) (l : list string) :
  forall (m : Row) k,
    fold_left (fun (row : Row) f => <[f := g f]> row) l m !! k
    = if decide (k ∈ l) then Some (g k) else m !! k.
Proof.
  induction l as [|f l IH]; intros m k.
  - case_decide as H; [by apply elem_of_nil in H|done].
  - change (fold_left (fun (row : Row) f => <[f := g f]> row) (f :: l) m)
      with (fold_left (fun (row : Row) f => <[f := g f]> row) l (<[f := g f]> m)).
    rewrite IH. destruct (decide (k ∈ l)) as [Hin|Hnin].
    + rewrite decide_True; [done|]. by right.
    + destruct (decide (k = f)) as [->|Hne].
      * rewrite lookup_insert_eq. rewrite decide_True; [done|]. by left.
      * rewrite lookup_insert_ne by done. rewrite decide_False; [done|].
        by intros [?|?]%elem_of_cons.
Qed.

Lemma fold_insert_dom (g : string -> jsval) (l : list string) :
  forall (m : Row),
    dom (fold_left (fun (row : Row) f => <[f := g f]> row) l m)
    = list_to_set l ∪ dom m.
Proof.
  induction l as [|f l IH]; intros m; simpl.
  - set_solver.
  - rewrite IH, dom_insert_L. set_solver.
Qed.

Lemma fieldValue_spec (res : option Row) f :
  fieldValue res f
  = match res with
    | Some r => match r !! f with
                | None | Some JNull => JStr ""
                | Some v => v
                end
    | None => JStr ""
    end.
Proof.
  unfold fieldValue, jsCoalesce.
  destruct res as [r|]; [|done]. by destruct (r !! f) as [[]|].
Qed.

Lemma fieldValue_not_null (res : option Row) f : fieldValue res f <> JNull.
Proof.
  rewrite fieldValue_spec.
  destruct res as [r|]; [|done]. by destruct (r !! f) as [[]|].
Qed.

Lemma postcode_not_field : "postcode" ∉ FIELDS.
Proof.
  unfold FIELDS. rewrite !not_elem_of_cons. repeat split; try done.
  apply not_elem_of_nil.
Qed.

Lemma rowOfItem_lookup item row :
  rowOfItem item = Ok row ->
  exists pc,
    itemPostcode item = Ok pc /\
    row !! "postcode" = Some pc /\
    (forall f, f ∈ FIELDS -> row !! f = Some (fieldValue (result item) f)) /\
    dom row = list_to_set HEADER.
Proof.
  unfold rowOfItem. destruct (itemPostcode item) as [pc|msg]; [|done].
  intros H. assert (row = fillFields (result item) {[ "postcode" := pc ]}) as ->
    by congruence.
  clear H. exists pc. split; [done|]. split; [|split].
  - unfold fillFields. rewrite (fold_insert_lookup (fieldValue (result item))).
    rewrite decide_False by apply postcode_not_field.
    apply lookup_singleton_eq.
  - intros f Hf. unfold fillFields.
    rewrite (fold_insert_lookup (fieldValue (result item))).
    by rewrite decide_True.
  - unfold fillFields.
    rewrite (fold_insert_dom (fieldValue (result item))), dom_singleton_L.
    unfold HEADER.
    rewrite list_to_set_cons. set_solver.
Qed.

Lemma itemPostcode_string item pc :
  itemPostcode item = Ok pc -> exists s, pc = JStr s.
Proof.
  unfold itemPostcode.
  destruct (jsOr _ _) as [[]|]; try done. intros [= <-]. by eexists.
Qed.

Lemma rowOfItem_shape item row : rowOfItem item = Ok row -> rowShape row.
Proof.
  intros (pc & Hpc & Hrow & Hfields & Hdom)%rowOfItem_lookup.
  split; [done|]. split.
  - apply itemPostcode_string in Hpc as [s ->]. by exists s.
  - intros f Hf. exists (fieldValue (result item) f).
    split; [by apply Hfields | apply fieldValue_not_null].
Qed.




Lemma pushRows_inv items : forall rows e e' rows',
  foldM pushRow items rows e = (e', Ok rows') ->
  e' = e /\
  exists new,
    rows' = rows ++ new /\
    Forall2 (fun item row => rowOfItem item = Ok row) items new.
Proof.
  induction items as [|item items IH]; intros rows e e' rows' H.
  - injection H as <- <-. split; [done|]. exists []. by rewrite app_nil_r.
  - simpl in H. apply bind_inv_ok in H as (e1 & rows1 & H1 & H2).
    unfold pushRow in H1. destruct (rowOfItem item) as [row|msg] eqn:E; [|done].
    injection H1 as <- <-.
    destruct (IH _ _ _ _ H2) as (-> & new & -> & Hnew).
    split; [done|]. exists (row :: new). rewrite <- app_assoc.
    split; [done|]. by constructor.
Qed.

End EnrichFacts.

Section RetryFacts.

Implicit Types (net : Net) (e : Env) (rows : list Row) (items : list Item)
  (postcodes : list string).

Lemma exhausted_firstSuccess net postcodes i :
  exhausted net postcodes i <-> firstSuccess net postcodes i = None.
Proof.
  unfold exhausted, firstSuccess. split.
  - intros H. by rewrite (H 0), (H 1), (H 2) by lia.
  - intros H a Ha.
    destruct (responseItems (net i 0 _)) eqn:E0; [done|].
    destruct (responseItems (net i 1 _)) eqn:E1; [done|].
    destruct a as [|[|[|a]]]; try done. lia.
Qed.

(** The three attempts for a chunk, whatever the network answers. *)
Lemma attempts_spec net postcodes i e :
  exists e',
    attempts net i (chunkAt postcodes i) 3 0 e
      = (e', Ok (firstSuccess net postcodes i)) /\
    slept e' = slept e ++ take (failuresBefore net postcodes i) [750; 1500; 2250] /\
    sent e' = sent e ++ replicate (Nat.min (failuresBefore net postcodes i + 1) 3)
                          (chunkAt postcodes i) /\
    sameArtifacts e e'.
Proof.
  unfold firstSuccess, failuresBefore.
  destruct (responseItems (net i 0 _)) as [x0|] eqn:E0.
  { eexists. split; [by apply attempts_ok|]. simpl.
    rewrite app_nil_r. by repeat split. }
  rewrite (attempts_fail _ _ _ _ _ _ E0).
  destruct (responseItems (net i 1 _)) as [x1|] eqn:E1.
  { eexists. split; [by apply attempts_ok|]. simpl.
    rewrite <- !app_assoc. by repeat split. }
  rewrite (attempts_fail _ _ _ _ _ _ E1).
  destruct (responseItems (net i 2 _)) as [x2|] eqn:E2.
  { eexists. split; [by apply attempts_ok|]. simpl.
    rewrite <- !app_assoc. by repeat split. }
  rewrite (attempts_fail _ _ _ _ _ _ E2).
  eexists. split; [reflexivity|]. simpl.
  rewrite <- !app_assoc. by repeat split.
Qed.

(** One turn of the outer loop, by the outcome of its attempts. *)
Lemma enrichChunk_spec net postcodes rows i e :
  exists e1,
    slept e1 = slept e ++ take (failuresBefore net postcodes i) [750; 1500; 2250] /\
    sent e1 = sent e ++ replicate (Nat.min (failuresBefore net postcodes i + 1) 3)
                          (chunkAt postcodes i) /\
    sameArtifacts e e1 /\
    enrichChunk net postcodes rows i e
    = match firstSuccess net postcodes i with
      | None => (e1, Throw "Failed to fetch after retries")
      | Some items =>
          match foldM pushRow items rows e1 with
          | (e2, Ok rows') => (addSlept 80 e2, Ok rows')
          | (e2, Throw msg) => (e2, Throw msg)
          end
      end.
Proof.
  pose (e0 := setStatus (StFetching (i + 1)
                 (Nat.min (i + MAX_BATCH) (length postcodes)) (length postcodes)) e).
  destruct (attempts_spec net postcodes i e0) as (e1 & Hat & Hsl & Hse & Hsame).
  exists e1. split; [done|]. split; [done|]. split; [done|].
  unfold enrichChunk. fold (chunkAt postcodes i).
  unfold mbind at 1, M_bind at 1. unfold modify at 1. fold e0.
  unfold mbind at 1, M_bind at 1. rewrite Hat.
  destruct (firstSuccess net postcodes i) as [items|]; [|done].
  unfold mbind at 1, M_bind at 1.
  destruct (foldM pushRow items rows e1) as [e2 [rows'|msg]]; done.
Qed.



End RetryFacts.

Section EnrichAllFacts.

Implicit Types (net : Net) (e : Env) (rows : list Row) (items : list Item)
  (postcodes : list string) (l : list nat).

(** The loop variable takes the multiples of [MAX_BATCH] below the length. *)
Lemma elem_of_offsets len i :
  i ∈ offsets len <-> i < len /\ exists k, i = k * MAX_BATCH.
Proof.
  unfold offsets. rewrite list_elem_of_fmap.
  assert (forall k, k < (len + (MAX_BATCH - 1)) / MAX_BATCH <-> k * MAX_BATCH < len)
    as Hdiv.
  { intros k. unfold MAX_BATCH. change (100 - 1) with 99.
    pose proof (Nat.div_mod_eq (len + 99) 100) as Hd.
    pose proof (Nat.mod_upper_bound (len + 99) 100) as Hm.
    set (q := (len + 99) / 100) in *. set (m := (len + 99) mod 100) in *. lia. }
  split.
  - intros (k & -> & Hk). apply elem_of_seq in Hk. split; [|by exists k].
    apply Hdiv. lia.
  - intros (Hlt & k & ->). exists k. split; [done|].
    apply elem_of_seq. apply Hdiv in Hlt. lia.
Qed.

Lemma sameArtifacts_refl e : sameArtifacts e e.
Proof. by repeat split. Qed.

Lemma sameArtifacts_trans e1 e2 e3 :
  sameArtifacts e1 e2 -> sameArtifacts e2 e3 -> sameArtifacts e1 e3.
Proof.
  unfold sameArtifacts. intros (?&?&?&?&?&?&?&?) (?&?&?&?&?&?&?&?).
  repeat split; congruence.
Qed.

Lemma pushRows_env items : forall rows e e' r,
  foldM pushRow items rows e = (e', r) -> e' = e.
Proof.
  induction items as [|item items IH]; intros rows e e' r H.
  - by injection H as <- _.
  - simpl in H. unfold mbind, M_bind, pushRow at 1 in H.
    destruct (rowOfItem item) as [row|msg]; simpl in H.
    + by apply IH in H.
    + by injection H as <- _.
Qed.

Lemma enrichChunk_same net postcodes rows i e e' r :
  enrichChunk net postcodes rows i e = (e', r) -> sameArtifacts e e'.
Proof.
  destruct (enrichChunk_spec net postcodes rows i e) as (e1 & _ & _ & Hsame & ->).
  destruct (firstSuccess net postcodes i) as [items|].
  - destruct (foldM pushRow items rows e1) as [e2 r2] eqn:E.
    apply pushRows_env in E as ->.
    destruct r2; intros [= <- _]; [|done].
    eapply sameArtifacts_trans; [exact Hsame|]. by repeat split.
  - by intros [= <- _].
Qed.

Lemma enrichAll_same net postcodes l : forall rows e e' r,
  foldM (enrichChunk net postcodes) l rows e = (e', r) -> sameArtifacts e e'.
Proof.
  induction l as [|i l IH]; intros rows e e' r H.
  - injection H as <- _. apply sameArtifacts_refl.
  - simpl in H. unfold mbind, M_bind in H.
    destruct (enrichChunk net postcodes rows i e) as [e1 [rows1|msg]] eqn:E.
    + eapply sameArtifacts_trans; [by eapply enrichChunk_same|by eapply IH].
    + injection H as <- _. by eapply enrichChunk_same.
Qed.

Lemma enrich_same net postcodes e e' r :
  enrich net postcodes e = (e', r) -> sameArtifacts e e'.
Proof.
  unfold enrich, mbind, M_bind.
  destruct (foldM _ _ _ e) as [e1 [rows|msg]] eqn:E; intros [= <- _].
  - eapply sameArtifacts_trans; [by eapply enrichAll_same|]. by repeat split.
  - by eapply enrichAll_same.
Qed.



Lemma enrichAll_shape net postcodes l : forall rows e e' rows',
  foldM (enrichChunk net postcodes) l rows e = (e', Ok rows') ->
  Forall rowShape rows -> Forall rowShape rows'.
Proof.
  induction l as [|i l IH]; intros rows e e' rows' H Hrows.
  - by injection H as _ <-.
  - simpl in H. apply bind_inv_ok in H as (e1 & rows1 & H1 & H2).
    apply (IH _ _ _ _ H2).
    destruct (enrichChunk_spec net postcodes rows i e) as (e0 & _ & _ & _ & Hc).
    rewrite Hc in H1. destruct (firstSuccess net postcodes i) as [items|]; [|done].
    destruct (foldM pushRow items rows e0) as [e2 [rows2|msg]] eqn:E; [|done].
    injection H1 as _ <-.
    apply pushRows_inv in E as (_ & new & -> & Hnew).
    apply Forall_app. split; [done|].
    clear -Hnew. induction Hnew as [|item row ? ? Hrow _ IHn]; constructor; [|done].
    by eapply rowOfItem_shape.
Qed.

(** The rows of a run that returns: one for each item of each array, in
    order, and every chunk was fetched. *)
Lemma enrichAll_inv net postcodes l : forall rows e e' rows',
  foldM (enrichChunk net postcodes) l rows e = (e', Ok rows') ->
  (forall i, i ∈ l -> is_Some (firstSuccess net postcodes i)) /\
  exists new,
    rows' = rows ++ new /\
    Forall2 (fun item row => rowOfItem item = Ok row) (allItems net postcodes l) new.
Proof.
  induction l as [|i l IH]; intros rows e e' rows' H.
  - injection H as _ <-. split; [by intros i Hi%elem_of_nil|].
    exists []. rewrite app_nil_r. split; [done|constructor].
  - simpl in H. apply bind_inv_ok in H as (e1 & rows1 & H1 & H2).
    destruct (IH _ _ _ _ H2) as (Hok & new2 & -> & Hnew2).
    destruct (enrichChunk_spec net postcodes rows i e) as (e0 & _ & _ & _ & Hc).
    rewrite Hc in H1.
    destruct (firstSuccess net postcodes i) as [items|] eqn:Hfs; [|done].
    destruct (foldM pushRow items rows e0) as [e2 [rows2|msg]] eqn:E; [|done].
    injection H1 as _ <-.
    apply pushRows_inv in E as (_ & new1 & -> & Hnew1).
    split.
    + intros j [->|Hj]%elem_of_cons; [by rewrite Hfs|by apply Hok].
    + exists (new1 ++ new2). rewrite <- app_assoc. split; [done|].
      unfold allItems. rewrite fmap_cons, Hfs. simpl. by apply Forall2_app.
Qed.


End EnrichAllFacts.





(** C9, as amended: every row [enrich] returns has exactly the keys
    [postcode] and the twelve fields, latitude and longitude among them;
    its postcode is a string; the rows are those of the items of the
    arrays that were fetched, one by one, and each field of a row holds the
    value the API sent for the item, whatever its type, and the empty
    string when the API sent no match, no value or [null], so that no field
    is [null] or [undefined]. *)
Theorem enrich_rows_have_all_fields :
  forall (net : Net) (postcodes : list string) (e e' : Env) (rows : list Row),
    enrich net postcodes e = (e', Ok rows) ->
    Forall rowShape rows /\
    (forall i, i ∈ offsets (length postcodes) ->
               is_Some (firstSuccess net postcodes i)) /\
    Forall2 fieldsMatch (allItems net postcodes (offsets (length postcodes))) rows /\
    HEADER = "postcode" :: FIELDS /\ length FIELDS = 12 /\
    length HEADER = 13 /\ NoDup HEADER /\
    "latitude" ∈ FIELDS /\ "longitude" ∈ FIELDS.
Proof.
  intros net postcodes e e' rows H.
  unfold enrich in H. apply bind_inv_ok in H as (e1 & rows1 & H1 & H2).
  injection H2 as _ <-.
  split; [by eapply enrichAll_shape|].
  apply enrichAll_inv in H1 as (Hok & new & -> & Hnew).
  split; [exact Hok|]. split.
  { simpl. eapply Forall2_impl; [exact Hnew|].
    intros item row (pc & _ & _ & Hfields & _)%rowOfItem_lookup f Hf.
    rewrite (Hfields f Hf), fieldValue_spec. unfold storedValue.
    by destruct (result item). }
  split; [done|]. split; [done|]. split; [done|]. split.
  { refine (bool_decide_unpack _ _). vm_compute. exact I. }
  split; refine (bool_decide_unpack _ _); vm_compute; exact I.
Qed.

Lemma enrich_rows_have_all_fields_witness :
  (exists rows,
     (enrich sampleNet sampleCodes initialEnv).2 = Ok rows /\
     Forall rowShape rows /\
     Forall2 fieldsMatch
       (allItems sampleNet sampleCodes (offsets (length sampleCodes))) rows) /\
  allItems sampleNet sampleCodes (offsets (length sampleCodes)) = sampleItems /\
  (fun row : Row => (row !! "country", row !! "latitude", row !! "parish"))
    <$> enrichedRows sampleNet sampleCodes initialEnv
  = [ (Some (JStr "England"), Some (JNum "51.501009"), Some (JStr ""));
      (Some (JStr ""), Some (JStr ""), Some (JStr "")) ].
Proof.
  split; [|split; vm_compute; reflexivity].
  destruct (enrich sampleNet sampleCodes initialEnv) as [e' [rows|msg]] eqn:E.
  - exists rows. split; [reflexivity|].
    destruct (enrich_rows_have_all_fields _ _ _ _ _ E) as (H1 & _ & H2 & _).
    by split.
  - exfalso.
    assert (isOk (enrich sampleNet sampleCodes initialEnv).2 = true) as H
      by (vm_compute; reflexivity).
    rewrite E in H. discriminate H.
Defined.

(** C9, as stated, fails: a number sent by the API for the latitude is
    stored in the row as it is, not as a string. *)
Lemma enrich_row_holds_a_number :
  (enrichedRows sampleNet sampleCodes initialEnv !! 0)
    ≫= (fun row : Row => row !! "latitude")
  = Some (JNum "51.501009") /\
  ~ Forall allStrings (enrichedRows sampleNet sampleCodes initialEnv).
Proof.
  assert ((enrichedRows sampleNet sampleCodes initialEnv !! 0)
            ≫= (fun row : Row => row !! "latitude")
          = Some (JNum "51.501009")) as Hlat by (vm_compute; reflexivity).
  split; [exact Hlat|]. intros Hall.
  destruct (enrichedRows sampleNet sampleCodes initialEnv !! 0) as [row|] eqn:E;
    [|discriminate Hlat].
  simpl in Hlat. rewrite Forall_lookup in Hall.
  destruct (Hall 0 row E "latitude" _ Hlat) as [s Hs]. discriminate Hs.
Qed.

Section ControllerFacts.

Implicit Types (net : Net) (e : Env) (postcodes : list string).


(** The handler after a run in which [enrich] throws. *)
Lemma runClick_failed net inputValue iso e e' msg :
  parsePostcodes inputValue <> [] ->
  enrich net (parsePostcodes inputValue)
    (setDisplay DisplayNone
       (setStatus StEnriching (setDownloadDisabled true (setRunDisabled true e))))
  = (e', Throw msg) ->
  runClick net inputValue iso e
  = setRunDisabled false (setDisplay DisplayNone (setStatus StError e')).
Proof.
  intros Hne H. unfold runClick.
  destruct (parsePostcodes inputValue) as [|pc pcs]; [done|]. by rewrite H.
Qed.

End ControllerFacts.




(** ** The table renderer *)

Section RenderFacts.

Implicit Types (rows : list Row) (header : list string) (e : Env) (r : Row).

Lemma tdText_cellText r h : tdText r h = cellText (r !! h).
Proof. unfold tdText, cellText, jsCoalesce. by destruct (r !! h) as [[]|]. Qed.

Lemma renderTable_spec rows header e :
  renderTable rows header e
  = match rows with
    | [] => setDisplay DisplayNone e
    | _ => setTable (Some (mkTable header (rowValues header <$> take 500 rows)))
             (setDisplay DisplayBlock e)
    end.
Proof.
  unfold renderTable. destruct rows as [|r rows]; [done|].
  rewrite (fold_left_push (fun h => h) header), list_fmap_id.
  rewrite (fold_left_push
             (fun r => fold_left (fun tr h => tr ++ [tdText r h]) header [])).
  do 3 f_equal. apply list_fmap_ext. intros _ r' _.
  rewrite (fold_left_push (tdText r')). simpl. unfold rowValues.
  apply list_fmap_ext. intros _ h _. apply tdText_cellText.
Qed.

End RenderFacts.

(** C8: for every list of rows the table shows the rows of cells of the
    first 500 rows, one per row and in order, so at most 500, with an empty
    cell where the row has no value; the text of [toCSV] for the same list
    has one line for every row, whatever their number, and under the header
    of the program it reads back as one record per row. *)
Theorem renderTable_caps_rows_toCSV_does_not :
  forall (rows : list Row) (header : list string) (e : Env),
    shownRows (renderTable rows header e) = rowValues header <$> take 500 rows /\
    length (shownRows (renderTable rows header e)) = Nat.min 500 (length rows) /\
    length (shownRows (renderTable rows header e)) <= 500 /\
    (rows <> [] ->
     display (renderTable rows header e) = DisplayBlock /\
     table (renderTable rows header e)
       = Some (mkTable header (rowValues header <$> take 500 rows))) /\
    (forall (r : Row) h,
        r !! h = None \/ r !! h = Some JNull -> tdText r h = "") /\
    toCSV rows header
      = Str.join (String Chr.LF "") (Str.join "," header :: (csvLine header <$> rows)) /\
    length (csvLine header <$> rows) = length rows /\
    length (Csv.dataRows (toCSV rows HEADER)) = length rows.
Proof.
  intros rows header e.
  assert (shownRows (renderTable rows header e)
          = rowValues header <$> take 500 rows) as Hshown.
  { rewrite renderTable_spec. by destruct rows. }
  split; [done|]. rewrite Hshown, length_fmap, length_take.
  split; [done|]. split; [lia|]. split; [|split; [|split; [|split]]].
  - intros Hne. rewrite renderTable_spec. by destruct rows.
  - intros r h [H|H]; unfold tdText; by rewrite H.
  - apply toCSV_lines.
  - apply length_fmap.
  - rewrite dataRows_toCSV; [apply length_fmap|done|apply HEADER_plain].
Qed.

Lemma renderTable_caps_rows_toCSV_does_not_witness :
  display (renderTable (replicate 501 (∅ : Row)) HEADER initialEnv) = DisplayBlock /\
  length (shownRows (renderTable (replicate 501 (∅ : Row)) HEADER initialEnv)) = 500 /\
  length (Csv.dataRows (toCSV (replicate 501 (∅ : Row)) HEADER)) = 501.
Proof.
  destruct (renderTable_caps_rows_toCSV_does_not
              (replicate 501 (∅ : Row)) HEADER initialEnv)
    as (_ & Hlen & _ & Hdisp & _ & _ & _ & Hcsv).
  split; [|split].
  - apply Hdisp. discriminate.
  - rewrite Hlen. reflexivity.
  - rewrite Hcsv. reflexivity.
Defined.

(** * Further properties of the program *)

(** ** The codes the normalizer returns *)

(** X1: every code returned by [parsePostcodes] is in one of two forms:
    five to eight upper-case letters and digits that do not make up an
    outward part followed by an inward part, or an outward part, one space
    and an inward part. *)
Theorem parsePostcodes_codes_canonical :
  forall raw pc,
    pc ∈ parsePostcodes raw ->
    (Str.forallb Chr.isAlnum pc = true /\
     5 <= String.length pc <= 8 /\
     ~ (exists o i, pc = o +:+ i /\ isOutward o /\ isInward i)) \/
    (exists o i, pc = o +:+ " " +:+ i /\ isOutward o /\ isInward i).
Proof.
  intros raw pc (t & _ & Hv & ->)%parsePostcodes_elem.
  rewrite (normalize_valid _ Hv).
  destruct (spaceInward_cases (compactOf t))
    as [[Hnone ->]|(o & i & _ & Ho & Hi & ->)]; [left|right; eauto].
  split; [apply compactOf_alnum|]. split.
  - unfold lengthValid in Hv. apply andb_true_iff in Hv as [H1 H2].
    apply Nat.leb_le in H1, H2. lia.
  - intros (o & i & E & Ho & Hi).
    rewrite E, (matchPostcode_shape _ _ Ho Hi) in Hnone. discriminate.
Qed.

Lemma parsePostcodes_codes_canonical_witness :
  (Str.forallb Chr.isAlnum "EC1A 1BB" = true /\
   5 <= String.length "EC1A 1BB" <= 8 /\
   ~ (exists o i, "EC1A 1BB" = o +:+ i /\ isOutward o /\ isInward i)) \/
  (exists o i, "EC1A 1BB" = o +:+ " " +:+ i /\ isOutward o /\ isInward i).
Proof.
  apply (parsePostcodes_codes_canonical "12345, ec1a1bb").
  vm_compute. right. left.
Defined.

(** ** Upper and lower case *)

Section UpperFacts.

Implicit Types (s t cur rest : string) (c : ascii).

Local Ltac by_cases c :=
  destruct c as [[] [] [] [] [] [] [] []]; vm_compute; intros; congruence.

Lemma upper_idem c : Str.flat_map Chr.upper (Chr.upper c) = Chr.upper c.
Proof. by_cases c. Qed.

Lemma upper_white c : Chr.isWhite c = true -> Chr.upper c = String c "".
Proof. by_cases c. Qed.

Lemma upper_notWhite c :
  Chr.isWhite c = false ->
  Str.forallb notWhite (Chr.upper c) = true /\ Str.isEmpty (Chr.upper c) = false.
Proof.
  destruct c as [[] [] [] [] [] [] [] []]; vm_compute; intros; split; congruence.
Qed.

Lemma upper_LF : Chr.upper Chr.LF = String Chr.LF "".
Proof. reflexivity. Qed.

Lemma upper_CR : Chr.upper Chr.CR = String Chr.CR "".
Proof. reflexivity. Qed.

Lemma upper_notBreak c :
  Ascii.eqb c Chr.LF = false -> Ascii.eqb c Chr.CR = false ->
  Str.forallb notBreak (Chr.upper c) = true.
Proof. by_cases c. Qed.

(** The upper-case form of a character other than a line feed does not
    start with a line feed. *)
Lemma upper_head_not_LF c :
  Ascii.eqb c Chr.LF = false ->
  exists x w, Chr.upper c = String x w /\ Ascii.eqb x Chr.LF = false.
Proof.
  destruct c as [[] [] [] [] [] [] [] []]; vm_compute; intros;
    try congruence; by eexists _, _.
Qed.

Lemma upper_comma c :
  Str.flat_map (fun x => if Ascii.eqb x Chr.comma then String Chr.LF "" else String x "")
    (Chr.upper c)
  = Str.flat_map Chr.upper
      (if Ascii.eqb c Chr.comma then String Chr.LF "" else String c "").
Proof. by_cases c. Qed.

Lemma flat_map_app f s t :
  Str.flat_map f (s +:+ t) = Str.flat_map f s +:+ Str.flat_map f t.
Proof.
  induction s as [|c s IH]; [done|]. rewrite sapp_cons. simpl.
  by rewrite IH, sapp_assoc.
Qed.

Lemma flat_map_flat_map f g s :
  Str.flat_map g (Str.flat_map f s)
  = Str.flat_map (fun c => Str.flat_map g (f c)) s.
Proof.
  induction s as [|c s IH]; [done|]. simpl. by rewrite flat_map_app, IH.
Qed.

Lemma flat_map_ext f g s :
  (forall c, f c = g c) -> Str.flat_map f s = Str.flat_map g s.
Proof. intros H. induction s as [|c s IH]; [done|]. simpl. by rewrite H, IH. Qed.

Lemma toUpperCase_idem s : Str.toUpperCase (Str.toUpperCase s) = Str.toUpperCase s.
Proof.
  unfold Str.toUpperCase. rewrite flat_map_flat_map.
  apply flat_map_ext, upper_idem.
Qed.

Lemma toUpperCase_cons c s :
  Str.toUpperCase (String c s) = Chr.upper c +:+ Str.toUpperCase s.
Proof. reflexivity. Qed.

Lemma toUpperCase_app s t :
  Str.toUpperCase (s +:+ t) = Str.toUpperCase s +:+ Str.toUpperCase t.
Proof. apply flat_map_app. Qed.

Lemma replaceAll_comma_upper s :
  Str.replaceAll Chr.comma (String Chr.LF "") (Str.toUpperCase s)
  = Str.toUpperCase (Str.replaceAll Chr.comma (String Chr.LF "") s).
Proof.
  unfold Str.replaceAll, Str.toUpperCase. rewrite !flat_map_flat_map.
  apply flat_map_ext, upper_comma.
Qed.

Lemma compactOf_upper s : compactOf (Str.toUpperCase s) = compactOf s.
Proof. unfold compactOf. by rewrite toUpperCase_idem. Qed.

Lemma normalize_upper s : normalize (Str.toUpperCase s) = normalize s.
Proof. unfold normalize. by rewrite compactOf_upper. Qed.

Lemma isEmpty_toUpperCase s : Str.isEmpty (Str.toUpperCase s) = Str.isEmpty s.
Proof.
  destruct s as [|c s]; [done|]. rewrite toUpperCase_cons. simpl.
  destruct (Chr.isWhite c) eqn:Hc.
  - by rewrite (upper_white _ Hc).
  - destruct (upper_notWhite _ Hc) as [_ H]. by destruct (Chr.upper c).
Qed.

Lemma trimStart_upper s :
  Str.trimStart (Str.toUpperCase s) = Str.toUpperCase (Str.trimStart s).
Proof.
  induction s as [|c s IH]; [done|]. rewrite toUpperCase_cons. simpl.
  destruct (Chr.isWhite c) eqn:Hc.
  - rewrite (upper_white _ Hc), sapp_cons, sapp_nil_l. simpl. by rewrite Hc.
  - destruct (upper_notWhite _ Hc) as [Hnw Hne]. rewrite toUpperCase_cons.
    destruct (Chr.upper c) as [|x w]; [done|]. simpl in Hnw.
    apply andb_true_iff in Hnw as [Hx _]. apply negb_true_iff in Hx.
    rewrite sapp_cons. simpl. by rewrite Hx.
Qed.

Lemma trimEnd_app_empty u v :
  Str.trimEnd v = "" -> Str.trimEnd (u +:+ v) = Str.trimEnd u.
Proof.
  intros Hv. induction u as [|c u IH]; [done|].
  rewrite sapp_cons. simpl. by rewrite IH.
Qed.

Lemma trimEnd_upper s :
  Str.trimEnd (Str.toUpperCase s) = Str.toUpperCase (Str.trimEnd s).
Proof.
  induction s as [|c s IH]; [done|]. rewrite toUpperCase_cons. simpl.
  destruct (Str.isEmpty (Str.trimEnd s)) eqn:He.
  - apply isEmpty_true in He. rewrite He in IH.
    rewrite (trimEnd_app_empty _ _ IH). simpl.
    destruct (Chr.isWhite c) eqn:Hc.
    + rewrite (upper_white _ Hc). simpl. by rewrite Hc.
    + destruct (upper_notWhite _ Hc) as [Hnw _].
      rewrite (trimEnd_notWhite _ Hnw), toUpperCase_cons, He. simpl.
      by rewrite sapp_nil_r.
  - simpl. rewrite toUpperCase_cons, <- IH. apply trimEnd_app.
    rewrite IH. apply isEmpty_false. by rewrite isEmpty_toUpperCase.
Qed.

Lemma trim_upper s : Str.trim (Str.toUpperCase s) = Str.toUpperCase (Str.trim s).
Proof. unfold Str.trim. by rewrite trimStart_upper, trimEnd_upper. Qed.

Lemma splitLines_other cur c s :
  Ascii.eqb c Chr.LF = false -> Ascii.eqb c Chr.CR = false ->
  Str.splitLines cur (String c s) = Str.splitLines (cur +:+ String c "") s.
Proof. simpl. by intros -> ->. Qed.

Lemma splitLines_CR_LF cur s :
  Str.splitLines cur (String Chr.CR (String Chr.LF s)) = cur :: Str.splitLines "" s.
Proof. reflexivity. Qed.

Lemma splitLines_CR_other cur x w :
  Ascii.eqb x Chr.LF = false ->
  Str.splitLines cur (String Chr.CR (String x w))
  = Str.splitLines (cur +:+ String Chr.CR "") (String x w).
Proof.
  intros Hx. change (Str.splitLines cur (String Chr.CR (String x w)))
    with (if Ascii.eqb x Chr.LF then cur :: Str.splitLines "" w
          else Str.splitLines (cur +:+ String Chr.CR "") (String x w)).
  by rewrite Hx.
Qed.

Lemma splitLines_CR_end cur :
  Str.splitLines cur (String Chr.CR "") = [cur +:+ String Chr.CR ""].
Proof. reflexivity. Qed.

Lemma splitLines_upper_fuel n : forall s cur,
  String.length s <= n ->
  Str.splitLines (Str.toUpperCase cur) (Str.toUpperCase s)
  = Str.toUpperCase <$> Str.splitLines cur s.
Proof.
  induction n as [|n IH]; intros s cur Hlen.
  - destruct s; [done|simpl in Hlen; lia].
  - destruct s as [|c s]; [done|]. simpl in Hlen.
    rewrite toUpperCase_cons.
    assert (forall cur',
              Str.splitLines (Str.toUpperCase (cur' +:+ String c "")) (Str.toUpperCase s)
              = Str.toUpperCase <$> Str.splitLines (cur' +:+ String c "") s) as Hstep
      by (intros; apply IH; lia).
    destruct (Ascii.eqb c Chr.LF) eqn:HLF.
    { apply Ascii.eqb_eq in HLF as ->. rewrite upper_LF, sapp_cons, sapp_nil_l.
      rewrite !splitLines_LF, fmap_cons. f_equal. apply (IH s ""). lia. }
    destruct (Ascii.eqb c Chr.CR) eqn:HCR.
    2:{ rewrite splitLines_plain by (by apply upper_notBreak).
        rewrite splitLines_other by done.
        rewrite <- Hstep, toUpperCase_app, toUpperCase_cons. simpl.
        by rewrite sapp_nil_r. }
    apply Ascii.eqb_eq in HCR as ->. rewrite upper_CR, sapp_cons, sapp_nil_l.
    destruct s as [|c' s'].
    { rewrite !splitLines_CR_end. simpl. by rewrite toUpperCase_app. }
    rewrite toUpperCase_cons. simpl in Hlen.
    destruct (Ascii.eqb c' Chr.LF) eqn:HLF'.
    { apply Ascii.eqb_eq in HLF' as ->. rewrite upper_LF, sapp_cons, sapp_nil_l.
      rewrite !splitLines_CR_LF, fmap_cons. f_equal. apply (IH s' ""). lia. }
    rewrite (splitLines_CR_other cur) by done.
    destruct (upper_head_not_LF _ HLF') as (x & w & Hup & Hx).
    rewrite Hup, sapp_cons, splitLines_CR_other by done.
    rewrite <- sapp_cons, <- Hup, <- toUpperCase_cons.
    specialize (Hstep cur). rewrite toUpperCase_app in Hstep. exact Hstep.
Qed.

Lemma splitLines_upper s cur :
  Str.splitLines (Str.toUpperCase cur) (Str.toUpperCase s)
  = Str.toUpperCase <$> Str.splitLines cur s.
Proof. by apply (splitLines_upper_fuel (String.length s)). Qed.

Lemma rawTokens_upper raw :
  rawTokens (Str.toUpperCase raw) = Str.toUpperCase <$> rawTokens raw.
Proof.
  unfold rawTokens. rewrite replaceAll_comma_upper.
  rewrite (splitLines_upper _ ""), <- !list_fmap_compose.
  apply list_fmap_ext. intros _ t _. apply trim_upper.
Qed.

End UpperFacts.

(** X2: [parsePostcodes] does not tell upper case from lower case: the
    upper-cased text gives the same list of codes. *)
Theorem parsePostcodes_case_insensitive :
  forall raw, parsePostcodes (Str.toUpperCase raw) = parsePostcodes raw.
Proof.
  intros raw. unfold parsePostcodes, tokens.
  rewrite rawTokens_upper, <- list_fmap_compose. do 2 f_equal.
  apply list_fmap_ext. intros _ t _. apply normalize_upper.
Qed.

(** ** Texts put one after the other *)

Section AppendFacts.

Implicit Types (s t a b cur : string) (c : ascii) (l : list string).

Lemma trimEnd_snoc_white s c :
  Chr.isWhite c = true -> Str.trimEnd (s +:+ String c "") = Str.trimEnd s.
Proof.
  intros Hc. apply trimEnd_app_empty. simpl. by rewrite Hc.
Qed.

Lemma trimStart_snoc_white s c :
  Chr.isWhite c = true ->
  Str.trimStart (s +:+ String c "")
  = if Str.isEmpty (Str.trimStart s) then "" else Str.trimStart s +:+ String c "".
Proof.
  intros Hc. induction s as [|x s IH].
  - simpl. by rewrite Hc.
  - rewrite sapp_cons. simpl. destruct (Chr.isWhite x); [exact IH|done].
Qed.

Lemma trim_snoc_white s c :
  Chr.isWhite c = true -> Str.trim (s +:+ String c "") = Str.trim s.
Proof.
  intros Hc. unfold Str.trim. rewrite (trimStart_snoc_white _ _ Hc).
  destruct (Str.trimStart s) eqn:E; [done|]. simpl Str.isEmpty. cbv iota.
  by apply trimEnd_snoc_white.
Qed.

Lemma splitLines_app_LF_fuel b n : forall a cur,
  String.length a <= n ->
  Str.trim <$> Str.splitLines cur (a +:+ String Chr.LF b)
  = (Str.trim <$> Str.splitLines cur a) ++ (Str.trim <$> Str.splitLines "" b).
Proof.
  induction n as [|n IH]; intros a cur Hlen.
  - destruct a; [|simpl in Hlen; lia]. by rewrite sapp_nil_l, splitLines_LF.
  - destruct a as [|c a]; [by rewrite sapp_nil_l, splitLines_LF|].
    simpl in Hlen. rewrite sapp_cons.
    destruct (Ascii.eqb c Chr.LF) eqn:HLF.
    { apply Ascii.eqb_eq in HLF as ->. rewrite !splitLines_LF, !fmap_cons.
      simpl. f_equal. apply IH. lia. }
    destruct (Ascii.eqb c Chr.CR) eqn:HCR.
    2:{ rewrite !splitLines_other by done. apply IH. lia. }
    apply Ascii.eqb_eq in HCR as ->.
    destruct a as [|c' a'].
    { rewrite sapp_nil_l, splitLines_CR_LF, splitLines_CR_end. simpl.
      by rewrite (trim_snoc_white cur Chr.CR). }
    rewrite sapp_cons. simpl in Hlen.
    destruct (Ascii.eqb c' Chr.LF) eqn:HLF'.
    { apply Ascii.eqb_eq in HLF' as ->. rewrite !splitLines_CR_LF, !fmap_cons.
      simpl. f_equal. apply IH. lia. }
    rewrite !splitLines_CR_other by done. rewrite <- sapp_cons. apply IH.
    simpl. lia.
Qed.

Lemma replaceAll_app c t a b :
  Str.replaceAll c t (a +:+ b) = Str.replaceAll c t a +:+ Str.replaceAll c t b.
Proof. apply flat_map_app. Qed.

(** The pieces of two texts joined by a comma or a line feed. *)
Lemma rawTokens_app a b sep :
  sep = Chr.comma \/ sep = Chr.LF ->
  rawTokens (a +:+ String sep b) = rawTokens a ++ rawTokens b.
Proof.
  intros Hsep. unfold rawTokens. rewrite replaceAll_app.
  assert (Str.replaceAll Chr.comma (String Chr.LF "") (String sep b)
          = String Chr.LF (Str.replaceAll Chr.comma (String Chr.LF "") b)) as ->
    by (by destruct Hsep as [-> | ->]).
  by eapply splitLines_app_LF_fuel.
Qed.

Lemma tokens_app a b sep :
  sep = Chr.comma \/ sep = Chr.LF ->
  tokens (a +:+ String sep b) = tokens a ++ tokens b.
Proof.
  intros Hsep. unfold tokens.
  by rewrite (rawTokens_app _ _ _ Hsep), fmap_app, List.filter_app.
Qed.

Lemma dedup_app l1 l2 :
  dedup (l1 ++ l2) = dedup l1 ++ filter (fun x => x ∉ dedup l1) (dedup l2).
Proof.
  induction l2 as [|x l2 IH] using rev_ind.
  - by rewrite !app_nil_r.
  - rewrite app_assoc, !dedup_snoc, IH.
    destruct (decide (x ∈ l2)) as [H2|H2].
    + rewrite decide_True; [done|]. apply elem_of_app. by right.
    + rewrite list.filter_app.
      destruct (decide (x ∈ l1)) as [H1|H1].
      * rewrite decide_True by (apply elem_of_app; by left).
        rewrite filter_cons. rewrite decide_False, filter_nil, app_nil_r; [done|].
        intros Hn. apply Hn. by apply elem_of_dedup.
      * rewrite decide_False.
        2:{ intros [?|?]%elem_of_app; done. }
        rewrite filter_cons. rewrite decide_True, filter_nil, app_assoc; [done|].
        by rewrite elem_of_dedup.
Qed.

End AppendFacts.

(** X3: the codes of two texts joined by a comma or by a line feed are the
    codes of the first text followed by those codes of the second text that
    the first text does not give. *)
Theorem parsePostcodes_app :
  forall a b sep,
    sep = Chr.comma \/ sep = Chr.LF ->
    parsePostcodes (a +:+ String sep b)
    = parsePostcodes a
      ++ filter (fun pc => pc ∉ parsePostcodes a) (parsePostcodes b).
Proof.
  intros a b sep Hsep. unfold parsePostcodes.
  by rewrite (tokens_app _ _ _ Hsep), dedup_app.
Qed.

Lemma parsePostcodes_app_witness :
  parsePostcodes ("m1 1ae, b33 8th" +:+ String Chr.LF "B338TH,cr2 6xh")
  = ["M1 1AE"; "B33 8TH"; "CR2 6XH"].
Proof.
  rewrite (parsePostcodes_app "m1 1ae, b33 8th" "B338TH,cr2 6xh" Chr.LF);
    [|by right].
  vm_compute. reflexivity.
Defined.

(** ** The CSV text as a whole *)

Section CsvMore.

Implicit Types (rows more : list Row) (header : list string) (r : Row).

Lemma esc_cellText (v : option jsval) : esc v = esc (Some (JStr (cellText v))).
Proof. by destruct v as [[| [] | |]|]. Qed.

Lemma esc_plainName h : plainName h -> esc (Some (JStr h)) = h.
Proof. unfold plainName, esc. simpl. by intros ->. Qed.

Lemma csvLine_rowValues header r :
  csvLine header r
  = Str.join "," ((fun t => esc (Some (JStr t))) <$> rowValues header r).
Proof.
  unfold csvLine, rowValues. rewrite <- list_fmap_compose. f_equal.
  apply list_fmap_ext. intros _ h _. apply esc_cellText.
Qed.

Lemma rowLines_rowValues header rows rows' :
  rowValues header <$> rows = rowValues header <$> rows' ->
  rowLines header rows = rowLines header rows'.
Proof.
  revert rows'. induction rows as [|r rows IH]; intros [|r' rows'] H; try done.
  rewrite !fmap_cons in H. injection H as Hr Hrows.
  simpl. by rewrite !csvLine_rowValues, Hr, (IH _ Hrows).
Qed.

Lemma rowLines_app header rows more :
  rowLines header (rows ++ more) = rowLines header rows +:+ rowLines header more.
Proof.
  induction rows as [|r rows IH]; [done|].
  simpl. by rewrite IH, !sapp_cons, sapp_assoc.
Qed.

Lemma plainName_notQuoteOrLF header :
  Forall plainName header ->
  Forall (fun h => Str.forallb notQuoteOrLF h = true) header.
Proof.
  intros Hall. eapply Forall_impl; [exact Hall|].
  intros h Hh. unfold plainName in Hh.
  induction h as [|c h IH]; [done|]. simpl in *.
  apply orb_false_iff in Hh as [Hc Hh].
  apply needsQuoting_false in Hc as (H1 & _ & H3).
  unfold notQuoteOrLF at 1. by rewrite H1, H3, (IH Hh).
Qed.

Lemma header_line_esc header :
  Forall plainName header ->
  Str.join "," header
  = Str.join "," (esc <$> ((fun h => Some (JStr h)) <$> header)).
Proof.
  intros Hall. f_equal. rewrite <- list_fmap_compose.
  induction Hall as [|h l Hh _ IH]; [done|].
  rewrite fmap_cons. f_equal; [|exact IH].
  symmetry. by apply esc_plainName.
Qed.

End CsvMore.

(** The records of the whole text when no name needs quoting. *)
Lemma parse_toCSV_plain (rows : list Row) (header : list string) :
  header <> [] ->
  Forall plainName header ->
  Csv.parse (toCSV rows header) = header :: (rowValues header <$> rows).
Proof.
  intros Hne Hall.
  rewrite toCSV_text, (header_line_esc _ Hall). unfold Csv.parse.
  destruct header as [|h header]; [done|]. rewrite !fmap_cons.
  destruct (run_line ((fun h => Some (JStr h)) <$> header) (Some (JStr h)) [] [])
    as [H1 H2].
  assert (cellText <$> (Some (JStr h) :: ((fun h => Some (JStr h)) <$> header))
          = h :: header) as Hcells.
  { rewrite fmap_cons. simpl. f_equal. rewrite <- list_fmap_compose.
    clear. induction header as [|x l IH]; [done|]. rewrite fmap_cons. by f_equal. }
  rewrite Hcells in H1, H2.
  destruct rows as [|x rows].
  - simpl rowLines. rewrite sapp_nil_r. exact H1.
  - simpl rowLines. rewrite sapp_cons, <- join_LF_rowLines.
    etrans; [apply H2|].
    change (csvLine (h :: header) x :: (csvLine (h :: header) <$> rows))
      with (csvLine (h :: header) <$> (x :: rows)).
    by rewrite run_rows.
Qed.

(** X4: when the header has two names or more and none of them holds a
    comma, a double quote or a line feed, the text of [toCSV] reads back as
    the header followed by the values of every row: the whole table comes
    back, the header included, whether or not the reader takes the end of
    the text for the end of a record that has not begun. *)
Theorem toCSV_parse_whole_table :
  forall (rows : list Row) (header : list string),
    2 <= length header ->
    Forall plainName header ->
    Csv.parseStd (toCSV rows header) = header :: (rowValues header <$> rows) /\
    Csv.parse (toCSV rows header) = header :: (rowValues header <$> rows).
Proof.
  intros rows header Hlen Hall.
  assert (header <> []) as Hne by (intros ->; simpl in Hlen; lia).
  pose proof (parse_toCSV_plain rows header Hne Hall) as H.
  split; [|exact H].
  rewrite parseStd_toCSV; [exact H|done|]. by apply plainName_notQuoteOrLF.
Qed.

Lemma toCSV_parse_whole_table_witness :
  Csv.parseStd
    (toCSV [ {[ "postcode" := JStr "M1 1AE"; "latitude" := JNum "53.48" ]} ]
           HEADER)
  = HEADER :: [ ["M1 1AE"; ""; ""; ""; ""; ""; ""; ""; ""; ""; ""; "53.48"; ""] ].
Proof.
  refine (eq_trans (proj1 (toCSV_parse_whole_table
    [ {[ "postcode" := JStr "M1 1AE"; "latitude" := JNum "53.48" ]} ] HEADER _ _)) _).
  - vm_compute. lia.
  - repeat constructor.
  - vm_compute. reflexivity.
Defined.

(** X5: under a header that is not empty and has no double quote and no
    line feed in its names, two lists of rows give the same text exactly
    when they have the same cell texts under the header: the text depends
    on nothing else in the rows (not on other keys, not on whether an empty
    cell was absent, [null] or the empty string), and rows that differ in a
    cell text never give the same text. *)
Theorem toCSV_equal_iff_same_cells :
  forall (rows rows' : list Row) (header : list string),
    header <> [] ->
    Forall (fun h => Str.forallb notQuoteOrLF h = true) header ->
    (toCSV rows header = toCSV rows' header <->
     rowValues header <$> rows = rowValues header <$> rows').
Proof.
  intros rows rows' header Hne Hall. split.
  - intros H. rewrite <- !(dataRows_toCSV _ header) by done. by rewrite H.
  - intros H. rewrite !toCSV_text. f_equal. by apply rowLines_rowValues.
Qed.

Lemma toCSV_equal_iff_same_cells_witness :
  toCSV [ {[ "postcode" := JStr "M1 1AE"; "parish" := JNull; "uprn" := JStr "1" ]} ]
        HEADER
  = toCSV [ {[ "postcode" := JStr "M1 1AE"; "country" := JStr "" ]} ] HEADER.
Proof.
  apply toCSV_equal_iff_same_cells.
  - discriminate.
  - exact HEADER_plain.
  - vm_compute. reflexivity.
Defined.

(** X6: the text for a list of rows followed by more rows is the text for
    the first list followed by the lines of the further rows, each after a
    line feed: rows can be exported piece by piece. *)
Theorem toCSV_app :
  forall (rows more : list Row) (header : list string),
    toCSV (rows ++ more) header = toCSV rows header +:+ rowLines header more /\
    (forall r : Row,
        toCSV (rows ++ [r]) header
        = toCSV rows header +:+ String Chr.LF (csvLine header r)).
Proof.
  intros rows more header. split.
  - by rewrite !toCSV_text, rowLines_app, sapp_assoc.
  - intros r. rewrite !toCSV_text, rowLines_app, sapp_assoc. simpl.
    by rewrite sapp_nil_r.
Qed.

(** ** The table *)

(** X7: rendering a list of rows that is not empty replaces whatever an
    earlier rendering left in the table, so rows never pile up from one run
    to the next; rendering an empty list only hides the results, and the
    table of the earlier rendering stays in the page. *)
Theorem renderTable_replaces :
  forall (rows rows' : list Row) (header header' : list string) (e : Env),
    (rows <> [] ->
     renderTable rows header (renderTable rows' header' e)
     = renderTable rows header e) /\
    table (renderTable [] header (renderTable rows' header' e))
      = table (renderTable rows' header' e) /\
    shownRows (renderTable [] header (renderTable rows' header' e)) = [].
Proof.
  intros rows rows' header header' e. split; [|split; [done|]].
  - intros Hne. rewrite !renderTable_spec.
    destruct rows as [|r rows]; [done|]. by destruct rows', e.
  - rewrite (renderTable_spec []). by destruct (renderTable rows' header' e).
Qed.

Lemma renderTable_replaces_witness :
  renderTable [ {[ "postcode" := JStr "M1 1AE" ]} ] HEADER
    (renderTable (replicate 3 (∅ : Row)) ["postcode"] initialEnv)
  = renderTable [ {[ "postcode" := JStr "M1 1AE" ]} ] HEADER initialEnv.
Proof.
  apply (proj1 (renderTable_replaces
                  [ {[ "postcode" := JStr "M1 1AE" ]} ] (replicate 3 (∅ : Row))
                  HEADER ["postcode"] initialEnv)).
  discriminate.
Defined.

(** X8: under the header of the program, the rows of cells the table shows
    are the first 500 records read back from the text of [toCSV] for the
    same rows: a cell of the table and the field of the file never
    differ. *)
Theorem table_cells_are_csv_fields :
  forall (rows : list Row) (e : Env),
    shownRows (renderTable rows HEADER e)
    = take 500 (Csv.dataRows (toCSV rows HEADER)).
Proof.
  intros rows e.
  rewrite dataRows_toCSV; [|done|apply HEADER_plain].
  rewrite <- fmap_take, renderTable_spec. by destruct rows.
Qed.

(** ** The chunks and the requests *)

Section ChunkFacts.

Implicit Types (postcodes : list string) (net : Net) (e : Env).

Lemma chunks_concat n : forall postcodes,
  length postcodes <= n * MAX_BATCH ->
  concat ((fun k => chunkAt postcodes (k * MAX_BATCH)) <$> seq 0 n) = postcodes.
Proof.
  induction n as [|n IH]; intros postcodes Hlen.
  - destruct postcodes; [done|simpl in Hlen; lia].
  - rewrite <- cons_seq, <- fmap_S_seq, fmap_cons, <- list_fmap_compose.
    simpl concat.
    rewrite (list_fmap_ext _
               (fun k => chunkAt (drop MAX_BATCH postcodes) (k * MAX_BATCH))
               (seq 0 n)).
    2:{ intros _ k _. unfold chunkAt. simpl. by rewrite drop_drop. }
    rewrite IH.
    + unfold chunkAt. simpl drop. apply take_drop.
    + rewrite length_drop. lia.
Qed.

Lemma offsets_chunks postcodes :
  chunkAt postcodes <$> offsets (length postcodes)
  = (fun k => chunkAt postcodes (k * MAX_BATCH))
      <$> seq 0 ((length postcodes + (MAX_BATCH - 1)) / MAX_BATCH).
Proof. unfold offsets. by rewrite <- list_fmap_compose. Qed.

Lemma offsets_cover len :
  len <= (len + (MAX_BATCH - 1)) / MAX_BATCH * MAX_BATCH.
Proof.
  unfold MAX_BATCH. change (100 - 1) with 99.
  pose proof (Nat.div_mod_eq (len + 99) 100) as Hd.
  pose proof (Nat.mod_upper_bound (len + 99) 100) as Hm.
  set (q := (len + 99) / 100) in *. set (m := (len + 99) mod 100) in *. lia.
Qed.

End ChunkFacts.

(** X9: the chunks [enrich] cuts the list of codes into, put one after the
    other, are the list of codes: every code is in exactly one chunk, in
    its place; no chunk is empty and none has more than 100 codes. *)
Theorem chunks_partition_the_codes :
  forall postcodes : list string,
    concat (chunkAt postcodes <$> offsets (length postcodes)) = postcodes /\
    Forall (fun chunk => 1 <= length chunk <= MAX_BATCH)
      (chunkAt postcodes <$> offsets (length postcodes)).
Proof.
  intros postcodes. split.
  - rewrite offsets_chunks. apply chunks_concat, offsets_cover.
  - apply Forall_fmap, Forall_forall. intros i [Hlt _]%elem_of_offsets.
    unfold chunkAt. simpl. rewrite length_take, length_drop.
    unfold MAX_BATCH. lia.
Qed.

Section TraceFacts.

Implicit Types (postcodes : list string) (net : Net) (e : Env)
  (rows : list Row) (l : list nat).

Lemma requestsFor_length net postcodes i :
  length (requestsFor net postcodes i) <= 3.
Proof. unfold requestsFor. rewrite length_replicate. lia. Qed.

Lemma requests_bound net postcodes l : forall m,
  length (concat (requestsFor net postcodes <$> take m l)) <= 3 * length l.
Proof.
  induction l as [|i l IH]; intros m.
  - rewrite take_nil. simpl. lia.
  - destruct m as [|m]; [simpl; lia|].
    change (take (S m) (i :: l)) with (i :: take m l).
    rewrite fmap_cons. simpl concat. rewrite length_app, length_cons.
    pose proof (requestsFor_length net postcodes i). specialize (IH m). lia.
Qed.

(** The requests of the loop: chunk after chunk, up to the chunk at which
    the loop stops. *)
Lemma enrichAll_sent net postcodes l : forall rows e e' r,
  foldM (enrichChunk net postcodes) l rows e = (e', r) ->
  exists m,
    m <= length l /\
    sent e' = sent e ++ concat (requestsFor net postcodes <$> take m l) /\
    (isOk r = true -> m = length l) /\
    (forall j i, l !! j = Some i -> exhausted net postcodes i -> m <= j + 1).
Proof.
  induction l as [|i l IH]; intros rows e e' r H.
  - injection H as <- <-. exists 0. rewrite app_nil_r. by repeat split.
  - simpl in H. unfold mbind, M_bind in H.
    destruct (enrichChunk_spec net postcodes rows i e) as (e1 & _ & Hse & _ & Hc).
    rewrite Hc in H. clear Hc.
    assert (sent e1 = sent e ++ concat (requestsFor net postcodes <$> take 1 (i :: l)))
      as Hone by (simpl; by rewrite app_nil_r).
    assert (forall msg, (e', r) = (e1, Throw msg) ->
              exists m, m <= length (i :: l) /\
                sent e' = sent e ++ concat (requestsFor net postcodes <$> take m (i :: l)) /\
                (isOk r = true -> m = length (i :: l)) /\
                (forall j i', (i :: l) !! j = Some i' ->
                              exhausted net postcodes i' -> m <= j + 1)) as Hstop.
    { intros msg [= -> ->]. exists 1. split; [simpl; lia|]. split; [done|].
      split; [done|]. intros; lia. }
    destruct (firstSuccess net postcodes i) as [items|] eqn:Hfs; [|by eapply Hstop].
    destruct (foldM pushRow items rows e1) as [e2 [rows'|msg]] eqn:Hp.
    2:{ apply pushRows_env in Hp as ->. by eapply Hstop. }
    apply pushRows_env in Hp as ->.
    destruct (IH _ _ _ _ H) as (m & Hm & Hsent & Hok & Hex).
    exists (S m). split; [simpl; lia|]. split; [|split].
    + rewrite Hsent. simpl sent. rewrite Hse. simpl. by rewrite <- app_assoc.
    + intros Hr. simpl. by rewrite (Hok Hr).
    + intros [|j] i' Hj Hexh.
      * injection Hj as <-. apply exhausted_firstSuccess in Hexh. congruence.
      * specialize (Hex _ _ Hj Hexh). lia.
Qed.

(** The sleeps of a loop that comes to its end. *)
Lemma enrichAll_slept net postcodes l : forall rows e e' rows',
  foldM (enrichChunk net postcodes) l rows e = (e', Ok rows') ->
  slept e' = slept e ++ concat (sleepsFor net postcodes <$> l).
Proof.
  induction l as [|i l IH]; intros rows e e' rows' H.
  - injection H as <- _. by rewrite app_nil_r.
  - simpl in H. apply bind_inv_ok in H as (e1 & rows1 & H1 & H2).
    destruct (enrichChunk_spec net postcodes rows i e) as (e0 & Hsl & _ & _ & Hc).
    rewrite Hc in H1. destruct (firstSuccess net postcodes i) as [items|]; [|done].
    destruct (foldM pushRow items rows e0) as [e2 [rows2|msg]] eqn:Hp; [|done].
    apply pushRows_env in Hp as ->. injection H1 as <- <-.
    rewrite (IH _ _ _ _ H2). simpl slept. rewrite Hsl.
    unfold sleepsFor. simpl. by rewrite <- !app_assoc.
Qed.

Lemma enrich_sent_prefix net postcodes e e' (r : Result (list Row)) :
  enrich net postcodes e = (e', r) ->
  exists m,
    sent e' = sent e ++ concat (requestsFor net postcodes
                                  <$> take m (offsets (length postcodes))) /\
    (isOk r = true -> m = length (offsets (length postcodes))).
Proof.
  intros H. unfold enrich, mbind, M_bind in H.
  destruct (foldM _ _ _ e) as [e1 r1] eqn:E.
  destruct (enrichAll_sent _ _ _ _ _ _ _ E) as (m & _ & Hsent & Hok & _).
  assert (sent e' = sent e1 /\ isOk r = isOk r1) as [Hs Hr].
  { destruct r1; injection H as <- <-; done. }
  exists m. by rewrite Hs, Hr.
Qed.

End TraceFacts.

(** X10: whatever the network answers, [enrich] sends its requests chunk
    after chunk in the order of the list: for a number [m] of leading
    chunks, each of them once per failed attempt and once for its
    successful attempt, three times at most, and nothing else.  When
    [enrich] returns rows every chunk has been requested; once the three
    attempts of a chunk have failed, no later chunk is requested. *)
Theorem enrich_requests_in_order :
  forall (net : Net) (postcodes : list string) (e e' : Env) (r : Result (list Row)),
    enrich net postcodes e = (e', r) ->
    exists m,
      m <= length (offsets (length postcodes)) /\
      sent e' = sent e ++ concat (requestsFor net postcodes
                                    <$> take m (offsets (length postcodes))) /\
      (isOk r = true -> m = length (offsets (length postcodes))) /\
      (forall j i,
          offsets (length postcodes) !! j = Some i ->
          exhausted net postcodes i -> m <= j + 1) /\
      length (sent e') <= length (sent e) + 3 * length (offsets (length postcodes)).
Proof.
  intros net postcodes e e' r H. unfold enrich, mbind, M_bind in H.
  destruct (foldM _ _ _ e) as [e1 r1] eqn:E.
  destruct (enrichAll_sent _ _ _ _ _ _ _ E) as (m & Hm & Hsent & Hok & Hex).
  assert (sent e' = sent e1 /\ isOk r = isOk r1) as [Hs Hr].
  { destruct r1; injection H as <- <-; done. }
  exists m. rewrite Hs, Hr. split; [done|]. split; [done|]. split; [done|].
  split; [done|].
  rewrite Hsent, length_app. apply Nat.add_le_mono_l, requests_bound.
Qed.

Lemma enrich_requests_in_order_witness :
  exists m,
    m <= length (offsets (length sampleCodes)) /\
    sent (enrich deadNet sampleCodes initialEnv).1
    = sent initialEnv ++ concat (requestsFor deadNet sampleCodes
                                   <$> take m (offsets (length sampleCodes))).
Proof.
  destruct (enrich_requests_in_order deadNet sampleCodes initialEnv
              (enrich deadNet sampleCodes initialEnv).1
              (enrich deadNet sampleCodes initialEnv).2)
    as (m & Hm & Hsent & _).
  - by destruct (enrich deadNet sampleCodes initialEnv).
  - exists m. by split.
Defined.

(** X11: when [enrich] returns rows, it has slept, for every chunk in
    turn, 750 ms times the number of each failed attempt and then 80 ms,
    and nothing else; the status line then reads that it is done with as
    many rows as it returns.  When no attempt has failed, the requests are
    the chunks, once each.  For an empty list of codes nothing is sent or
    slept and the result is no rows. *)
Theorem enrich_success_trace :
  forall (net : Net) (postcodes : list string) (e e' : Env) (rows : list Row),
    enrich net postcodes e = (e', Ok rows) ->
    slept e' = slept e ++ concat (sleepsFor net postcodes
                                    <$> offsets (length postcodes)) /\
    status e' = StDone (length rows) /\
    ((forall i, i ∈ offsets (length postcodes) -> failuresBefore net postcodes i = 0) ->
     sent e' = sent e ++ (chunkAt postcodes <$> offsets (length postcodes))) /\
    enrich net [] e = (setStatus (StDone 0) e, Ok []).
Proof.
  intros net postcodes e e' rows H.
  pose proof H as H'. unfold enrich in H'.
  apply bind_inv_ok in H' as (e1 & rows1 & H1 & H2).
  injection H2 as <- <-.
  split; [by apply (enrichAll_slept _ _ _ _ _ _ _ H1)|]. split; [done|].
  split; [|done]. intros Hnone.
  destruct (enrichAll_sent _ _ _ _ _ _ _ H1) as (m & _ & Hsent & Hok & _).
  rewrite (Hok eq_refl), firstn_all in Hsent. simpl sent. rewrite Hsent.
  f_equal. revert Hnone. generalize (offsets (length postcodes)). clear.
  intros l Hnone. induction l as [|i l IH]; [done|].
  rewrite !fmap_cons. simpl. rewrite IH by (intros; apply Hnone; by right).
  unfold requestsFor. rewrite Hnone by (by left). done.
Qed.

Lemma enrich_success_trace_witness :
  slept (enrich sampleNet sampleCodes initialEnv).1 = [750; 1500; 80] /\
  status (enrich sampleNet sampleCodes initialEnv).1 = StDone 2.
Proof.
  destruct (enrich sampleNet sampleCodes initialEnv) as [e' [rows|msg]] eqn:E.
  - destruct (enrich_success_trace _ _ _ _ _ E) as (Hsl & Hst & _).
    simpl. rewrite Hsl, Hst. split; [reflexivity|].
    assert (length (enrichedRows sampleNet sampleCodes initialEnv) = 2) as Hlen
      by (vm_compute; reflexivity).
    unfold enrichedRows in Hlen. rewrite E in Hlen. simpl in Hlen. by rewrite Hlen.
  - exfalso.
    assert (isOk (enrich sampleNet sampleCodes initialEnv).2 = true) as H
      by (vm_compute; reflexivity).
    rewrite E in H. discriminate H.
Defined.

(** ** Answers the enricher does not expect *)

Section OddAnswers.

Implicit Types (postcodes : list string) (net : Net) (e : Env)
  (rows : list Row) (items : list Item) (item : Item).

Lemma pushRows_throw items : forall rows e item,
  item ∈ items -> isOk (rowOfItem item) = false ->
  exists msg, foldM pushRow items rows e = (e, Throw msg).
Proof.
  induction items as [|x items IH]; intros rows e item Hin Hbad;
    [by apply elem_of_nil in Hin|].
  simpl. unfold mbind, M_bind, pushRow at 1.
  destruct (rowOfItem x) as [row|msg] eqn:E; [|by eexists].
  simpl. apply elem_of_cons in Hin as [->|Hin]; [by rewrite E in Hbad|].
  by eapply IH.
Qed.

Lemma enrichChunk_bad_item net postcodes rows i e items item :
  firstSuccess net postcodes i = Some items ->
  item ∈ items -> isOk (rowOfItem item) = false ->
  exists e' msg, enrichChunk net postcodes rows i e = (e', Throw msg).
Proof.
  intros Hfs Hin Hbad.
  destruct (enrichChunk_spec net postcodes rows i e) as (e1 & _ & _ & _ & ->).
  rewrite Hfs.
  destruct (pushRows_throw items rows e1 item Hin Hbad) as [msg ->]. eauto.
Qed.

Lemma enrichAll_bad_item net postcodes (l : list nat) i items item :
  forall rows e,
    i ∈ l -> firstSuccess net postcodes i = Some items ->
    item ∈ items -> isOk (rowOfItem item) = false ->
    exists e' msg, foldM (enrichChunk net postcodes) l rows e = (e', Throw msg).
Proof.
  induction l as [|j l IH]; intros rows e Hin Hfs Hitem Hbad;
    [by apply elem_of_nil in Hin|].
  simpl. unfold mbind, M_bind.
  destruct (enrichChunk net postcodes rows j e) as [e1 [rows1|msg]] eqn:E;
    [|by eauto].
  apply elem_of_cons in Hin as [->|Hin]; [|by apply IH].
  exfalso.
  destruct (enrichChunk_bad_item net postcodes rows j e items item Hfs Hitem Hbad)
    as (e2 & msg & E2). congruence.
Qed.

Lemma rowOfItem_untyped_postcode item v :
  result item ≫= (fun res : Row => res !! "postcode") = Some v ->
  truthy (Some v) = true -> (forall s, v <> JStr s) ->
  isOk (rowOfItem item) = false.
Proof.
  intros Hv Ht Hns. unfold rowOfItem, itemPostcode, jsOr. rewrite Hv.
  destruct v as [| b | t | s0]; simpl in Ht.
  - discriminate Ht.
  - by subst b.
  - simpl. rewrite Ht. simpl. by rewrite Ht.
  - by destruct (Hns s0).
Qed.

End OddAnswers.

(** X12: a response with an [ok] status whose body has no [result] (or
    [null] for it) counts as a success with an empty array: the chunk is
    requested once, nothing is retried or thrown, and the codes of the
    chunk give no row. *)
Theorem enrich_missing_result_gives_no_rows :
  forall (net : Net) (postcodes : list string) (rows : list Row) (i : nat) (e : Env),
    net i 0 (chunkAt postcodes i) = Http true (Some None) ->
    exists e',
      enrichChunk net postcodes rows i e = (e', Ok rows) /\
      sent e' = sent e ++ [chunkAt postcodes i] /\
      slept e' = slept e ++ [80].
Proof.
  intros net postcodes rows i e Hnet.
  destruct (enrichChunk_spec net postcodes rows i e) as (e1 & Hsl & Hse & _ & Hc).
  assert (firstSuccess net postcodes i = Some []) as Hfs
    by (unfold firstSuccess; by rewrite Hnet).
  assert (failuresBefore net postcodes i = 0) as Hk
    by (unfold failuresBefore; by rewrite Hnet).
  rewrite Hfs in Hc. rewrite Hk in Hsl, Hse. simpl in Hc, Hsl, Hse.
  exists (addSlept 80 e1). split; [done|]. split; [done|].
  simpl. rewrite Hsl. by rewrite app_nil_r.
Qed.

Lemma enrich_missing_result_gives_no_rows_witness :
  exists e',
    enrichChunk (fun _ _ _ => Http true (Some None)) sampleCodes [] 0 initialEnv
      = (e', Ok []) /\
    sent e' = sent initialEnv ++ [chunkAt sampleCodes 0] /\
    slept e' = slept initialEnv ++ [80].
Proof.
  apply (enrich_missing_result_gives_no_rows
           (fun _ _ _ => Http true (Some None)) sampleCodes [] 0 initialEnv).
  reflexivity.
Defined.

(** X13: when an array that was fetched holds an item whose
    [result.postcode] is neither falsy nor a string (a number, [true]),
    [toUpperCase] throws outside the retry loop and the whole run throws:
    [enrich] returns no rows, and the click handler shows the error
    status. *)
Theorem enrich_throws_on_untyped_postcode :
  forall (net : Net) (postcodes : list string) (i : nat) (items : list Item)
         (item : Item) (v : jsval) (e : Env),
    i ∈ offsets (length postcodes) ->
    firstSuccess net postcodes i = Some items ->
    item ∈ items ->
    result item ≫= (fun res : Row => res !! "postcode") = Some v ->
    truthy (Some v) = true ->
    (forall s, v <> JStr s) ->
    (exists e' msg, enrich net postcodes e = (e', Throw msg)) /\
    (forall inputValue iso,
        parsePostcodes inputValue = postcodes ->
        status (runClick net inputValue iso e) = StError /\
        shownRows (runClick net inputValue iso e) = []).
Proof.
  intros net postcodes i items item v e Hi Hfs Hin Hv Ht Hns.
  pose proof (rowOfItem_untyped_postcode _ _ Hv Ht Hns) as Hbad.
  assert (forall e0, exists e' msg, enrich net postcodes e0 = (e', Throw msg)) as Hthrow.
  { intros e0.
    destruct (enrichAll_bad_item net postcodes _ i items item [] e0 Hi Hfs Hin Hbad)
      as (e' & msg & H).
    exists e', msg. unfold enrich, mbind, M_bind. by rewrite H. }
  split; [apply Hthrow|].
  intros inputValue iso Hparse. subst postcodes.
  destruct (Hthrow (runStart e)) as (e' & msg & H).
  assert (parsePostcodes inputValue <> []) as Hne.
  { apply elem_of_offsets in Hi as [Hlt _]. intros E. rewrite E in Hlt.
    simpl in Hlt. lia. }
  by rewrite (runClick_failed _ _ _ _ _ _ Hne H).
Qed.

Lemma enrich_throws_on_untyped_postcode_witness :
  exists e' msg,
    enrich (fun _ _ _ => Http true (Some (Some
              [mkItem (Some (JStr "M1 1AE")) (Some {[ "postcode" := JNum "11" ]})])))
      ["M1 1AE"] initialEnv
    = (e', Throw msg).
Proof.
  refine (proj1 (enrich_throws_on_untyped_postcode
    (fun _ _ _ => Http true (Some (Some
       [mkItem (Some (JStr "M1 1AE")) (Some {[ "postcode" := JNum "11" ]})])))
    ["M1 1AE"] 0 _
    (mkItem (Some (JStr "M1 1AE")) (Some {[ "postcode" := JNum "11" ]}))
    (JNum "11") initialEnv _ _ _ _ _ _)).
  - vm_compute. left.
  - reflexivity.
  - left.
  - reflexivity.
  - reflexivity.
  - discriminate.
Defined.

(** X14: whatever happens, [enrich] changes only the status line and the
    logs of what was sent and slept: the table, its visibility, the two
    buttons, the download held by the download button and the object URLs
    are as before. *)
Theorem enrich_leaves_the_page_alone :
  forall (net : Net) (postcodes : list string) (e e' : Env) (r : Result (list Row)),
    enrich net postcodes e = (e', r) ->
    sameArtifacts e e'.
Proof.
  intros net postcodes e e' r H. unfold enrich, mbind, M_bind in H.
  destruct (foldM _ _ _ e) as [e1 [rows|msg]] eqn:E; injection H as <- _.
  - eapply sameArtifacts_trans; [by eapply enrichAll_same|]. by repeat split.
  - by eapply enrichAll_same.
Qed.

Lemma enrich_leaves_the_page_alone_witness :
  sameArtifacts initialEnv (enrich deadNet sampleCodes initialEnv).1.
Proof.
  apply (enrich_leaves_the_page_alone deadNet sampleCodes initialEnv _
           (enrich deadNet sampleCodes initialEnv).2).
  by destruct (enrich deadNet sampleCodes initialEnv).
Defined.

(** ** The click handler of the run button *)

Section RunFacts.

Implicit Types (net : Net) (e : Env) (rows : list Row) (postcodes : list string).

Lemma parsePostcodes_nil_iff raw :
  parsePostcodes raw = [] <->
  Forall (fun t => lengthValid t = false) (rawTokens raw).
Proof.
  unfold parsePostcodes. split.
  - intros H. apply Forall_forall. intros t Ht.
    destruct (lengthValid t) eqn:Hv; [|done].
    assert (normalize t ∈ dedup (tokens raw)) as Hin.
    { apply elem_of_dedup, elem_of_tokens. eauto. }
    rewrite H in Hin. by apply elem_of_nil in Hin.
  - intros Hall. rewrite tokens_valid.
    assert (List.filter lengthValid (rawTokens raw) = []) as ->; [|done].
    induction Hall as [|t l Ht _ IH]; [done|]. simpl. by rewrite Ht.
Qed.

Lemma runClick_ok net inputValue iso e e' rows :
  parsePostcodes inputValue <> [] ->
  enrich net (parsePostcodes inputValue) (runStart e) = (e', Ok rows) ->
  runClick net inputValue iso e
  = setRunDisabled false
      (setStatus (StEnriched (length rows))
         (setDownloadDisabled false
            (setDataset (length (blobs e)) (fileName iso)
               (addBlob (toCSV rows HEADER)
                  (match datasetUrl e with
                   | Some u => addRevoked u (renderTable rows HEADER e')
                   | None => renderTable rows HEADER e'
                   end))))).
Proof.
  intros Hne H. unfold runClick. fold (runStart e).
  destruct (parsePostcodes inputValue) as [|pc pcs]; [done|]. rewrite H.
  apply enrich_same in H as (_ & _ & _ & _ & Hu & _ & Hb & _).
  simpl in Hu, Hb.
  assert (datasetUrl (renderTable rows HEADER e') = datasetUrl e) as Hu'.
  { rewrite renderTable_spec. by destruct rows. }
  assert (blobs (renderTable rows HEADER e') = blobs e) as Hb'.
  { rewrite renderTable_spec. by destruct rows. }
  rewrite Hu'. unfold fileName.
  destruct (datasetUrl e); simpl; by rewrite Hb'.
Qed.

(** The first request of a run is the first chunk. *)
Lemma enrich_sends_first net postcodes e e' r :
  postcodes <> [] ->
  enrich net postcodes e = (e', r) ->
  exists more, sent e' = sent e ++ chunkAt postcodes 0 :: more.
Proof.
  intros Hne H.
  destruct (enrich_sent_prefix _ _ _ _ _ H) as (m & Hsent & Hok).
  assert (exists l, offsets (length postcodes) = 0 :: l) as [l Hl].
  { destruct postcodes as [|pc pcs]; [done|]. unfold offsets.
    assert (exists k, (length (pc :: pcs) + (MAX_BATCH - 1)) / MAX_BATCH = S k)
      as [k ->]; [|by eexists].
    pose proof (offsets_cover (length (pc :: pcs))) as Hc.
    destruct ((length (pc :: pcs) + (MAX_BATCH - 1)) / MAX_BATCH); [|by eexists].
    simpl in Hc. lia. }
  rewrite Hl in *.
  destruct m as [|m].
  - exfalso. unfold enrich, mbind, M_bind in H. rewrite Hl in H. simpl in H.
    unfold mbind, M_bind in H.
    destruct (enrichChunk_spec net postcodes [] 0 e) as (e1 & _ & Hse & _ & Hc).
    assert (length (sent e') = length (sent e)) as Hlen
      by (rewrite Hsent; simpl; by rewrite app_nil_r).
    destruct r as [rows|msg]; [specialize (Hok eq_refl); simpl in Hok; lia|].
    rewrite Hc in H.
    assert (length (sent e1) <= length (sent e')) as Hmono.
    { destruct (firstSuccess net postcodes 0) as [items|].
      - destruct (foldM pushRow items [] e1) as [e2 [rows'|msg']] eqn:Hp.
        + apply pushRows_env in Hp as ->.
          destruct (foldM (enrichChunk net postcodes) l rows' (addSlept 80 e1))
            as [e3 r3] eqn:E3.
          destruct (enrichAll_sent _ _ _ _ _ _ _ E3) as (m' & _ & Hs3 & _).
          assert (e' = e3) by (by destruct r3; injection H as <-). subst e3.
          rewrite Hs3, length_app. simpl. lia.
        + apply pushRows_env in Hp as ->. by injection H as <-.
      - by injection H as <-. }
    rewrite Hse, length_app, length_replicate in Hmono. lia.
  - change (take (S m) (0 :: l)) with (0 :: take m l) in Hsent.
    rewrite fmap_cons in Hsent. simpl in Hsent. unfold requestsFor at 1 in Hsent.
    destruct (Nat.min (failuresBefore net postcodes 0 + 1) 3) as [|k] eqn:Hk; [lia|].
    simpl in Hsent. eauto.
Qed.

Lemma runClick_ok_urls net inputValue iso e e' rows :
  parsePostcodes inputValue <> [] ->
  enrich net (parsePostcodes inputValue) (runStart e) = (e', Ok rows) ->
  blobs (runClick net inputValue iso e) = blobs e ++ [toCSV rows HEADER] /\
  datasetUrl (runClick net inputValue iso e) = Some (length (blobs e)) /\
  revoked (runClick net inputValue iso e)
    = revoked e ++ match datasetUrl e with Some u => [u] | None => [] end.
Proof.
  intros Hne H. rewrite (runClick_ok _ _ _ _ _ _ Hne H).
  apply enrich_same in H as (_ & _ & _ & _ & _ & _ & Hb & Hr).
  simpl in Hb, Hr.
  assert (blobs (renderTable rows HEADER e') = blobs e) as Hb'.
  { rewrite renderTable_spec. by destruct rows. }
  assert (revoked (renderTable rows HEADER e') = revoked e) as Hr'.
  { rewrite renderTable_spec. by destruct rows. }
  destruct (datasetUrl e) as [u|]; simpl; rewrite ?Hb', ?Hr', ?app_nil_r; done.
Qed.

End RunFacts.

(** X15: [parsePostcodes] returns the empty list exactly when no piece of
    the text has a compacted form of 5 to 8 characters; the click handler
    then only writes the request for a postcode into the status line: it
    sends nothing, sleeps for nothing, and leaves the buttons, the table
    and the download as they are. *)
Theorem runClick_without_codes :
  forall (net : Net) (inputValue iso : string) (e : Env),
    (parsePostcodes inputValue = [] <->
     Forall (fun t => lengthValid t = false) (rawTokens inputValue)) /\
    (Forall (fun t => lengthValid t = false) (rawTokens inputValue) ->
     runClick net inputValue iso e = setStatus StPleasePaste e /\
     sent (runClick net inputValue iso e) = sent e /\
     slept (runClick net inputValue iso e) = slept e /\
     sameArtifacts e (runClick net inputValue iso e)).
Proof.
  intros net inputValue iso e. split; [apply parsePostcodes_nil_iff|].
  intros Hall. apply parsePostcodes_nil_iff in Hall.
  unfold runClick. rewrite Hall. by repeat split.
Qed.

Lemma runClick_without_codes_witness :
  runClick deadNet " , ab1 ; 123456789" "2024-01-02T03:04:05.678Z" initialEnv
  = setStatus StPleasePaste initialEnv.
Proof.
  apply (proj2 (runClick_without_codes deadNet " , ab1 ; 123456789"
                  "2024-01-02T03:04:05.678Z" initialEnv)).
  apply parsePostcodes_nil_iff. vm_compute. reflexivity.
Defined.

(** X16: after a click on the run button with at least one code in the
    text, the first chunk has been requested and the run button is enabled
    again, whether [enrich] returned or threw; the download button is
    enabled exactly when [enrich] returned rows. *)
Theorem runClick_buttons :
  forall (net : Net) (inputValue iso : string) (e : Env),
    parsePostcodes inputValue <> [] ->
    runDisabled (runClick net inputValue iso e) = false /\
    downloadDisabled (runClick net inputValue iso e)
      = negb (isOk (enrich net (parsePostcodes inputValue) (runStart e)).2) /\
    exists more,
      sent (runClick net inputValue iso e)
      = sent e ++ chunkAt (parsePostcodes inputValue) 0 :: more.
Proof.
  intros net inputValue iso e Hne.
  destruct (enrich net (parsePostcodes inputValue) (runStart e)) as [e' r] eqn:E.
  destruct (enrich_sends_first _ _ _ _ _ Hne E) as [more Hsent].
  change (sent (runStart e)) with (sent e) in Hsent.
  destruct r as [rows|msg].
  - rewrite (runClick_ok _ _ _ _ _ _ Hne E). split; [done|]. split; [done|].
    exists more. etrans; [|exact Hsent].
    destruct (datasetUrl e); simpl; rewrite renderTable_spec; by destruct rows.
  - rewrite (runClick_failed _ _ _ _ _ _ Hne E). split; [done|]. split.
    + simpl. by apply enrich_same in E as (_ & _ & _ & -> & _).
    + by exists more.
Qed.

Lemma runClick_buttons_witness :
  runDisabled (runClick sampleNet "sw1a 1aa" "2024-01-02T03:04:05.678Z" initialEnv)
    = false /\
  downloadDisabled (runClick sampleNet "sw1a 1aa" "2024-01-02T03:04:05.678Z" initialEnv)
    = false.
Proof.
  destruct (runClick_buttons sampleNet "sw1a 1aa" "2024-01-02T03:04:05.678Z" initialEnv)
    as (H1 & H2 & _).
  - vm_compute. discriminate.
  - split; [exact H1|]. rewrite H2. vm_compute. reflexivity.
Defined.

(** X17: when [enrich] returns rows, the click handler leaves the page
    with the first 500 rows in the table, the status line telling the
    number of rows, a new object URL for the text of [toCSV] over all the
    rows under the header of the program, the file name made from the
    instant, and the object URL the download button held before
    revoked. *)
Theorem runClick_success_state :
  forall (net : Net) (inputValue iso : string) (e e' : Env) (rows : list Row),
    parsePostcodes inputValue <> [] ->
    enrich net (parsePostcodes inputValue) (runStart e) = (e', Ok rows) ->
    let e2 := runClick net inputValue iso e in
    status e2 = StEnriched (length rows) /\
    shownRows e2 = rowValues HEADER <$> take 500 rows /\
    blobs e2 = blobs e ++ [toCSV rows HEADER] /\
    datasetUrl e2 = Some (length (blobs e)) /\
    datasetFilename e2 = Some (fileName iso) /\
    revoked e2 = revoked e ++ match datasetUrl e with Some u => [u] | None => [] end.
Proof.
  intros net inputValue iso e e' rows Hne H e2. subst e2.
  rewrite (runClick_ok _ _ _ _ _ _ Hne H).
  apply enrich_same in H as (_ & _ & _ & _ & _ & _ & Hb & Hr).
  simpl in Hb, Hr.
  assert (blobs (renderTable rows HEADER e') = blobs e) as Hb'.
  { rewrite renderTable_spec. by destruct rows. }
  assert (revoked (renderTable rows HEADER e') = revoked e) as Hr'.
  { rewrite renderTable_spec. by destruct rows. }
  assert (shownRows (renderTable rows HEADER e') = rowValues HEADER <$> take 500 rows)
    as Hshown.
  { rewrite renderTable_spec. by destruct rows. }
  destruct (datasetUrl e) as [u|]; simpl; rewrite ?Hb', ?Hr', ?app_nil_r;
    repeat split; exact Hshown.
Qed.

Lemma runClick_success_state_witness :
  datasetFilename (runClick sampleNet "sw1a 1aa" "2024-01-02T03:04:05.678Z" initialEnv)
  = Some "postcodes_enriched_2024-01-02-03-04-05.csv".
Proof.
  destruct (enrich sampleNet (parsePostcodes "sw1a 1aa") (runStart initialEnv))
    as [e' [rows|msg]] eqn:E.
  - assert (parsePostcodes "sw1a 1aa" <> []) as Hne by (vm_compute; discriminate).
    destruct (runClick_success_state sampleNet "sw1a 1aa" "2024-01-02T03:04:05.678Z"
                initialEnv e' rows Hne E) as (_ & _ & _ & _ & Hname & _).
    rewrite Hname. vm_compute. reflexivity.
  - exfalso.
    assert (isOk (enrich sampleNet (parsePostcodes "sw1a 1aa") (runStart initialEnv)).2
            = true) as H by (vm_compute; reflexivity).
    rewrite E in H. discriminate H.
Defined.

(** ** Object URLs *)

Section UrlFacts.

Implicit Types (net : Net) (e : Env) (rows : list Row).

Lemma noLeak_same e e' :
  blobs e' = blobs e -> revoked e' = revoked e -> datasetUrl e' = datasetUrl e ->
  noLeak e -> noLeak e'.
Proof. unfold noLeak. by intros -> -> ->. Qed.

Lemma noLeak_runClick net inputValue iso e :
  noLeak e -> noLeak (runClick net inputValue iso e).
Proof.
  intros Hl.
  destruct (decide (parsePostcodes inputValue = [])) as [Hnil|Hne].
  { unfold runClick. rewrite Hnil. by eapply noLeak_same. }
  destruct (enrich net (parsePostcodes inputValue) (runStart e)) as [e' [rows|msg]] eqn:E.
  - destruct (runClick_ok_urls _ _ iso _ _ _ Hne E) as (Hb & Hu & Hr).
    destruct Hl as (H1 & H2 & H3).
    unfold noLeak. rewrite Hb, Hu, Hr, length_app. simpl.
    split; [|split].
    + intros u Hlt. destruct (decide (u = length (blobs e))) as [->|Hne']; [by right|].
      left. apply elem_of_app. destruct (H1 u) as [?|Hd]; [lia|by left|].
      right. rewrite Hd. by left.
    + intros u [Hin|Hin]%elem_of_app; [specialize (H2 _ Hin); lia|].
      destruct (datasetUrl e) as [u'|] eqn:Hd; [|by apply elem_of_nil in Hin].
      apply list_elem_of_singleton in Hin as ->. destruct (H3 _ eq_refl). lia.
    + intros u [= <-]. split; [lia|].
      intros [Hin|Hin]%elem_of_app; [specialize (H2 _ Hin); lia|].
      destruct (datasetUrl e) as [u'|] eqn:Hd; [|by apply elem_of_nil in Hin].
      apply list_elem_of_singleton in Hin as <-. destruct (H3 _ eq_refl). lia.
  - rewrite (runClick_failed _ _ _ _ _ _ Hne E).
    apply enrich_same in E as (_ & _ & _ & _ & Hu & _ & Hb & Hr).
    by eapply noLeak_same.
Qed.

Lemma noLeak_initial : noLeak initialEnv.
Proof.
  split; [|split].
  - intros u Hu. simpl in Hu. lia.
  - intros u Hu. by apply elem_of_nil in Hu.
  - by intros u.
Qed.

Lemma noLeak_afterRuns runs : forall e, noLeak e -> noLeak (afterRuns runs e).
Proof.
  induction runs as [|r runs IH]; intros e He; [done|].
  apply IH. by apply noLeak_runClick.
Qed.

End UrlFacts.

(** X18: after any series of clicks on the run button from the page as
    loaded, whatever the networks, the texts and the outcomes, every object
    URL the program ever made is revoked except the one the download
    button holds: the only URL that still gives its text is that one, so
    object URLs do not pile up. *)
Theorem object_urls_do_not_leak :
  forall runs : list Run,
    noLeak (afterRuns runs initialEnv) /\
    (forall url text,
        blobText (afterRuns runs initialEnv) url = Some text ->
        datasetUrl (afterRuns runs initialEnv) = Some url).
Proof.
  intros runs. pose proof (noLeak_afterRuns runs _ noLeak_initial) as Hl.
  split; [done|]. intros url text. unfold blobText. case_decide as Hr; [done|].
  intros Hb%lookup_lt_Some. destruct Hl as (H1 & _). by destruct (H1 url Hb).
Qed.

(** ** The name of the file *)

Section NameFacts.

Implicit Types (s iso : string) (c : ascii).

Lemma take_length n s : String.length (Str.take n s) <= n.
Proof.
  revert s. induction n as [|n IH]; intros [|c s]; simpl; try lia.
  specialize (IH s). lia.
Qed.

Lemma take_forallb p n s :
  Str.forallb p s = true -> Str.forallb p (Str.take n s) = true.
Proof.
  revert s. induction n as [|n IH]; intros [|c s]; simpl; try done.
  intros [Hc Hs]%andb_true_iff. by rewrite Hc, IH.
Qed.

Lemma dash_forallb s :
  Str.forallb notColonOrT
    (Str.map (fun c => if Ascii.eqb c ":" || Ascii.eqb c "T" then "-"%char else c) s)
  = true.
Proof.
  induction s as [|c s IH]; [done|]. simpl. rewrite IH, andb_true_r.
  unfold notColonOrT. destruct (Ascii.eqb c ":" || Ascii.eqb c "T") eqn:E; [done|].
  by rewrite E.
Qed.

Lemma digit_kept c :
  Chr.isDigit c = true ->
  (if Ascii.eqb c ":" || Ascii.eqb c "T" then "-"%char else c) = c.
Proof. destruct c as [[] [] [] [] [] [] [] []]; vm_compute; intros; congruence. Qed.

End NameFacts.

(** X19: the part of the file name made from the instant has at most 19
    characters and neither a colon nor a T in it; for an instant written
    as [toISOString] writes it (year, month, day, T, hours, minutes and
    seconds in digits, then the rest) it is the date and the time to the
    second, all joined by hyphens. *)
Theorem timestamp_of_instant :
  forall iso,
    String.length (timestamp iso) <= 19 /\
    Str.forallb notColonOrT (timestamp iso) = true /\
    (forall Y M D h m s rest,
        iso = Y +:+ "-" +:+ M +:+ "-" +:+ D +:+ "T" +:+ h +:+ ":" +:+ m +:+ ":"
              +:+ s +:+ rest ->
        String.length Y = 4 -> String.length M = 2 -> String.length D = 2 ->
        String.length h = 2 -> String.length m = 2 -> String.length s = 2 ->
        Str.forallb Chr.isDigit (Y +:+ M +:+ D +:+ h +:+ m +:+ s) = true ->
        timestamp iso
        = Y +:+ "-" +:+ M +:+ "-" +:+ D +:+ "-" +:+ h +:+ "-" +:+ m +:+ "-" +:+ s).
Proof.
  intros iso. split; [apply take_length|]. split.
  { unfold timestamp. apply take_forallb, dash_forallb. }
  intros Y M D h m s rest -> HY HM HD Hh Hm Hs Hdig.
  repeat match goal with
         | H : String.length ?x = _ |- _ =>
             destruct x; simpl in H; [try discriminate H|]; try injection H as H
         end.
  all: try discriminate.
  rewrite !sapp_cons, !sapp_nil_l in Hdig. simpl in Hdig.
  repeat match goal with
         | H : _ && _ = true |- _ => apply andb_true_iff in H as [? H]
         end.
  rewrite !sapp_cons, !sapp_nil_l. unfold timestamp. simpl.
  rewrite !digit_kept by done. reflexivity.
Qed.

Lemma timestamp_of_instant_witness :
  timestamp "2024-01-02T03:04:05.678Z" = "2024-01-02-03-04-05".
Proof.
  refine (proj2 (proj2 (timestamp_of_instant "2024-01-02T03:04:05.678Z"))
            "2024" "01" "02" "03" "04" "05" ".678Z" _ _ _ _ _ _ _ _);
    reflexivity.
Defined.

(** ** The download *)

Section DownloadFacts.

Implicit Types (d : Doc) (e : Env) (net : Net).

Lemma fileName_nonempty iso : Str.isEmpty (fileName iso) = false.
Proof. reflexivity. Qed.

Lemma runClick_ok_filename net inputValue iso e e' rows :
  parsePostcodes inputValue <> [] ->
  enrich net (parsePostcodes inputValue) (runStart e) = (e', Ok rows) ->
  datasetFilename (runClick net inputValue iso e) = Some (fileName iso).
Proof. intros Hne H. by rewrite (runClick_ok _ _ _ _ _ _ Hne H). Qed.

Lemma anchorsPending_download name url d :
  anchorsPending d -> anchorsPending (download name url d).
Proof.
  intros (Hids & Hlt & Hnd). unfold anchorsPending, download. simpl.
  split; [by rewrite fmap_app, Hids|]. split.
  - apply Forall_app. split; [|by repeat constructor].
    eapply Forall_impl; [exact Hlt|]. intros; simpl in *; lia.
  - apply NoDup_app. split; [done|]. split; [|apply NoDup_singleton].
    intros id Hin ->%list_elem_of_singleton.
    rewrite Forall_forall in Hlt. specialize (Hlt _ Hin). lia.
Qed.

Lemma anchorsPending_runTimer d id rest :
  timers d = id :: rest -> anchorsPending d ->
  timers (runTimer d) = rest /\ anchorsPending (runTimer d) /\
  env (runTimer d) = env d /\ clicked (runTimer d) = clicked d /\
  length (body (runTimer d)) = length rest.
Proof.
  intros Ht (Hids & Hlt & Hnd). unfold runTimer, anchorsPending.
  rewrite Ht in *. simpl.
  destruct (body d) as [|a bs] eqn:Hb; [done|].
  rewrite fmap_cons in Hids. injection Hids as Ha Hbs.
  apply NoDup_cons in Hnd as [Hnotin Hnd].
  assert (List.filter (fun a0 => negb (anchorId a0 =? id)) (a :: bs) = bs) as ->.
  { simpl. rewrite Ha, Nat.eqb_refl. simpl.
    clear Hb. revert Hnotin. rewrite <- Hbs. clear.
    induction bs as [|b bs IH]; [done|]. rewrite fmap_cons.
    intros [Hne Hrest]%not_elem_of_cons. simpl.
    destruct (Nat.eqb_spec (anchorId b) id) as [E|_]; [by rewrite E in Hne|].
    simpl. by rewrite IH. }
  split; [done|]. split; [|split; [done|split; [done|]]].
  - split; [done|]. split; [|done]. by apply Forall_cons in Hlt as [_ ?].
  - by rewrite <- Hbs, length_fmap.
Qed.

Lemma runTimers_clear l : forall d,
  timers d = l -> anchorsPending d ->
  body (fold_left (fun d _ => runTimer d) l d) = [] /\
  timers (fold_left (fun d _ => runTimer d) l d) = [] /\
  env (fold_left (fun d _ => runTimer d) l d) = env d /\
  clicked (fold_left (fun d _ => runTimer d) l d) = clicked d.
Proof.
  induction l as [|id rest IH]; intros d Ht Hp.
  - simpl. destruct Hp as (Hids & _). rewrite Ht in Hids.
    split; [by apply fmap_nil_inv in Hids|]. done.
  - destruct (anchorsPending_runTimer _ _ _ Ht Hp) as (Ht' & Hp' & He & Hc & _).
    simpl. destruct (IH _ Ht' Hp') as (-> & -> & -> & ->). by rewrite He, Hc.
Qed.

End DownloadFacts.

(** X20: while the download button holds no object URL its click handler
    does nothing at all.  After a run in which [enrich] returned rows, it
    clicks one new anchor whose [download] attribute is the file name of
    the run and whose [href] is an object URL that gives exactly the text
    of [toCSV] over all the rows of the run; the page is not changed. *)
Theorem downloadClick_delivers_the_csv :
  forall d : Doc,
    (datasetUrl (env d) = None -> downloadClick d = d) /\
    (forall (net : Net) (inputValue iso : string) (e' : Env) (rows : list Row),
        noLeak (env d) ->
        parsePostcodes inputValue <> [] ->
        enrich net (parsePostcodes inputValue) (runStart (env d)) = (e', Ok rows) ->
        exists a,
          clicked (downloadClick (runClickDoc net inputValue iso d))
            = clicked d ++ [a] /\
          downloadName a = fileName iso /\
          blobText (env (downloadClick (runClickDoc net inputValue iso d))) (href a)
            = Some (toCSV rows HEADER) /\
          env (downloadClick (runClickDoc net inputValue iso d))
            = runClick net inputValue iso (env d)).
Proof.
  intros d. split.
  { intros H. unfold downloadClick. by rewrite H. }
  intros net inputValue iso e' rows (_ & H2 & H3) Hne H.
  destruct (runClick_ok_urls _ _ iso _ _ _ Hne H) as (Hb & Hu & Hr).
  pose proof (runClick_ok_filename _ _ iso _ _ _ Hne H) as Hf.
  unfold downloadClick, runClickDoc. simpl env. rewrite Hu, Hf, fileName_nonempty.
  eexists. split; [reflexivity|]. split; [reflexivity|]. split; [|reflexivity].
  simpl. unfold blobText. rewrite Hb, Hr. rewrite decide_False.
  - by rewrite list_lookup_middle.
  - intros [Hin|Hin]%elem_of_app; [specialize (H2 _ Hin); lia|].
    destruct (datasetUrl (env d)) as [u|] eqn:Hd; [|by apply elem_of_nil in Hin].
    apply list_elem_of_singleton in Hin as <-. destruct (H3 _ eq_refl). lia.
Qed.

Lemma downloadClick_delivers_the_csv_witness :
  exists a,
    clicked (downloadClick
               (runClickDoc sampleNet "sw1a 1aa" "2024-01-02T03:04:05.678Z"
                  (mkDoc initialEnv [] [] [] 0)))
      = [] ++ [a] /\
    downloadName a = fileName "2024-01-02T03:04:05.678Z" /\
    blobText (env (downloadClick
                     (runClickDoc sampleNet "sw1a 1aa" "2024-01-02T03:04:05.678Z"
                        (mkDoc initialEnv [] [] [] 0)))) (href a)
      = Some (toCSV (enrichedRows sampleNet (parsePostcodes "sw1a 1aa")
                       (runStart initialEnv)) HEADER).
Proof.
  unfold enrichedRows.
  destruct (enrich sampleNet (parsePostcodes "sw1a 1aa") (runStart initialEnv))
    as [e' [rows|msg]] eqn:E.
  - destruct (proj2 (downloadClick_delivers_the_csv (mkDoc initialEnv [] [] [] 0))
                sampleNet "sw1a 1aa" "2024-01-02T03:04:05.678Z" e' rows)
      as (a & H1 & H2 & H3 & _).
    + exact noLeak_initial.
    + vm_compute. discriminate.
    + exact E.
    + exists a. by repeat split.
  - exfalso.
    assert (isOk (enrich sampleNet (parsePostcodes "sw1a 1aa") (runStart initialEnv)).2
            = true) as H by (vm_compute; reflexivity).
    rewrite E in H. discriminate H.
Defined.

(** X21: [download] puts its anchor into the body only until the callback
    it hands to [setTimeout] runs: in a document whose anchors all wait
    for their callbacks (as in the document as loaded), after a click on
    the download button and the pending callbacks the body holds no anchor
    and no callback is left, and the page and the record of clicks are
    untouched by the callbacks. *)
Theorem download_anchor_is_removed :
  forall d : Doc,
    anchorsPending d ->
    anchorsPending (downloadClick d) /\
    body (runTimers (downloadClick d)) = [] /\
    timers (runTimers (downloadClick d)) = [] /\
    env (runTimers (downloadClick d)) = env d /\
    clicked (runTimers (downloadClick d)) = clicked (downloadClick d).
Proof.
  intros d Hp.
  assert (anchorsPending (downloadClick d)) as Hp'.
  { unfold downloadClick. destruct (datasetUrl (env d)); [|done].
    by apply anchorsPending_download. }
  split; [done|].
  destruct (runTimers_clear _ _ eq_refl Hp') as (Hb & Ht & He & Hc).
  unfold runTimers. rewrite Hb, Ht, He, Hc. repeat split.
  unfold downloadClick. by destruct (datasetUrl (env d)).
Qed.

Lemma download_anchor_is_removed_witness :
  body (runTimers (downloadClick
          (mkDoc (runClick sampleNet "sw1a 1aa" "2024-01-02T03:04:05.678Z" initialEnv)
             [] [] [] 0))) = [].
Proof.
  refine (proj1 (proj2 (download_anchor_is_removed
            (mkDoc (runClick sampleNet "sw1a 1aa" "2024-01-02T03:04:05.678Z" initialEnv)
               [] [] [] 0) _))).
  split; [reflexivity|]. split; [constructor|constructor].
Defined.
